(** * The lexical analyser of [analisador.py]

    A shallow embedding of the classes [TokenType], [Token] and [Lexer] of
    [src/analisador.py], followed by the properties of [Lexer.tokenize] and
    of its three readers.

    A Python [str] is a sequence of Unicode code points: a character is a
    code point, a number [N], and a string is a list of them.  The methods
    [str.isdigit], [str.isalpha] and [str.isalnum] read the Unicode
    character database of the interpreter; their values on ASCII are fixed
    and written out, their values on the other code points are parameters
    of the development ([UnicodeData]). *)

From Stdlib Require Import String Ascii List NArith Arith Bool Lia Sorted.
Import ListNotations.

(** ** Characters and strings *)

Definition char : Type := N.
Definition str : Type := list char.

(** The code point of an ASCII character, and the Python string of an
    ASCII literal. *)
Definition ch (a : ascii) : char := N_of_ascii a.
Definition py (s : string) : str := map ch (list_ascii_of_string s).

Definition LF : char := 10%N.
Definition TAB : char := 9%N.
Definition SPACE : char := 32%N.
Definition DQUOTE : char := 34%N.
Definition SQUOTE : char := 39%N.
Definition BACKSLASH : char := 92%N.
Definition DOT : char := 46%N.
Definition UNDERSCORE : char := 95%N.

(** [c in s] for a one-character string [c]. *)
Definition char_in (c : char) (s : str) : bool := existsb (N.eqb c) s.

Fixpoint str_eqb (a b : str) : bool :=
  match a, b with
  | [], [] => true
  | x :: a', y :: b' => N.eqb x y && str_eqb a' b'
  | _, _ => false
  end.

(** The tables of the Unicode character database outside ASCII. *)
Record UnicodeData : Type := {
  uni_isalpha : char -> bool;
  uni_isdecimal : char -> bool;
  uni_isdigit : char -> bool;
  uni_isnumeric : char -> bool
}.

Definition is_ascii (c : char) : bool := (c <? 128)%N.
Definition ascii_digit (c : char) : bool := (48 <=? c)%N && (c <=? 57)%N.
Definition ascii_letter (c : char) : bool :=
  ((65 <=? c)%N && (c <=? 90)%N) || ((97 <=? c)%N && (c <=? 122)%N).

Section Classification.
Variable ucd : UnicodeData.

Definition isalpha (c : char) : bool :=
  if is_ascii c then ascii_letter c else uni_isalpha ucd c.
Definition isdecimal (c : char) : bool :=
  if is_ascii c then ascii_digit c else uni_isdecimal ucd c.
Definition isdigit (c : char) : bool :=
  if is_ascii c then ascii_digit c else uni_isdigit ucd c.
Definition isnumeric (c : char) : bool :=
  if is_ascii c then ascii_digit c else uni_isnumeric ucd c.
(** [str.isalnum]: alphabetic, decimal, digit or numeric. *)
Definition isalnum (c : char) : bool :=
  isalpha c || isdecimal c || isdigit c || isnumeric c.
End Classification.

(** A database with nothing outside ASCII, for concrete runs. *)
Definition ascii_only : UnicodeData :=
  {| uni_isalpha := fun _ => false; uni_isdecimal := fun _ => false;
     uni_isdigit := fun _ => false; uni_isnumeric := fun _ => false |}.

(** ** Tokens *)

Inductive TokenType : Type :=
  | NUMBER | STRING | IDENTIFIER
  | PLUS | MINUS | MULTIPLY | DIVIDE
  | EQUAL | NOT_EQUAL | LESS_THAN | GREATER_THAN | LESS_EQUAL | GREATER_EQUAL
  | ASSIGN
  | LEFT_PAREN | RIGHT_PAREN | LEFT_BRACKET | RIGHT_BRACKET | COMMA
  | IF | WHILE | FOR | PRINT
  | NEWLINE | EOF | WHITESPACE.

Record Token : Type := mkToken {
  type : TokenType;
  value : str;
  line : nat;
  column : nat
}.

(** ** Failures

    Both [raise SyntaxError(...)] of the source, told apart by their
    message, and the [TypeError] that [result += None] raises. *)
Inductive exn : Type :=
  | UnterminatedString (line column : nat)
      (* "String não fechada na linha {line}, coluna {column}" *)
  | UnexpectedCharacter (c : char) (line column : nat)
      (* "Caractere não reconhecido '{c}' na linha {line}, coluna {column}" *)
  | TypeError.
      (* can only concatenate str (not "NoneType") to str *)

Inductive outcome (A : Type) : Type :=
  | Return (a : A)
  | Raise (e : exn).
Arguments Return {A} a.
Arguments Raise {A} e.

Definition bind {A B} (m : outcome A) (k : A -> outcome B) : outcome B :=
  match m with
  | Return a => k a
  | Raise e => Raise e
  end.

(** ** The lexer state *)

Record Lexer : Type := mkLexer {
  text : str;
  pos : nat;
  cur_line : nat;     (* self.line *)
  cur_column : nat    (* self.column *)
}.

(** [Lexer.__init__] *)
Definition Lexer_init (t : str) : Lexer :=
  {| text := t; pos := 0; cur_line := 1; cur_column := 1 |}.

(** [self.keywords] and [dict.get]. *)
Definition keywords : list (str * TokenType) :=
  [ (py "if", IF); (py "while", WHILE); (py "for", FOR); (py "print", PRINT) ].

Fixpoint dict_get {V : Type} (d : list (str * V)) (k : str) (default : V) : V :=
  match d with
  | [] => default
  | (k', v) :: d' => if str_eqb k' k then v else dict_get d' k default
  end.

Definition current_char (lx : Lexer) : option char :=
  nth_error (text lx) (pos lx).

Definition peek_char (lx : Lexer) (offset : nat) : option char :=
  nth_error (text lx) (pos lx + offset).

Definition advance (lx : Lexer) : Lexer :=
  if match nth_error (text lx) (pos lx) with
     | Some c => N.eqb c LF
     | None => false
     end
  then {| text := text lx; pos := pos lx + 1;
          cur_line := cur_line lx + 1; cur_column := 1 |}
  else {| text := text lx; pos := pos lx + 1;
          cur_line := cur_line lx; cur_column := cur_column lx + 1 |}.

(** The characters the cursor has not passed, and the bound on the number
    of iterations of a loop that advances at every turn. *)
Definition remaining (lx : Lexer) : str := skipn (pos lx) (text lx).
Definition budget (lx : Lexer) : nat := length (text lx) - pos lx.

(** The loop
    [while self.current_char() and p(self.current_char()):
         result += self.current_char(); self.advance()]. *)
Fixpoint scan_while (p : char -> bool) (fuel : nat) (lx : Lexer) (result : str)
  : Lexer * str :=
  match fuel with
  | 0 => (lx, result)
  | S fuel' =>
      match current_char lx with
      | Some c =>
          if p c then scan_while p fuel' (advance lx) (result ++ [c])
          else (lx, result)
      | None => (lx, result)
      end
  end.

Definition skip_whitespace (lx : Lexer) : Lexer :=
  fst (scan_while (fun c => char_in c [SPACE; TAB]) (budget lx) lx []).

(** [a == b] for two values that are a character or [None]. *)
Definition option_char_eqb (a b : option char) : bool :=
  match a, b with
  | Some x, Some y => N.eqb x y
  | None, None => true
  | _, _ => false
  end.

Section Readers.
Variable ucd : UnicodeData.

Definition read_number (lx : Lexer) : Lexer * Token :=
  let start_column := cur_column lx in
  let '(lx1, result) := scan_while (isdigit ucd) (budget lx) lx [] in
  let '(lx2, result) :=
    if option_char_eqb (current_char lx1) (Some DOT) then
      let lx1' := advance lx1 in
      scan_while (isdigit ucd) (budget lx1') lx1' (result ++ [DOT])
    else (lx1, result) in
  (lx2, mkToken NUMBER result (cur_line lx2) start_column).

(** [c == quote_char], where [quote_char] is [None] when [read_string]
    is entered at the end of the text. *)
Definition is_quote (quote_char : option char) (c : char) : bool :=
  match quote_char with
  | Some q => N.eqb c q
  | None => false
  end.

Definition decode_escape (quote_char : option char) (e : char) : char :=
  if N.eqb e (ch "n") then LF
  else if N.eqb e (ch "t") then TAB
  else if N.eqb e BACKSLASH then BACKSLASH
  else if is_quote quote_char e then e
  else e.

Fixpoint read_string_loop (fuel : nat) (quote_char : option char)
    (lx : Lexer) (result : str) : outcome (Lexer * str) :=
  match fuel with
  | 0 => Return (lx, result)
  | S fuel' =>
      match current_char lx with
      | None => Return (lx, result)
      | Some c =>
          if is_quote quote_char c then Return (lx, result)
          else if N.eqb c BACKSLASH then
            let lx1 := advance lx in
            match current_char lx1 with
            | Some e =>
                read_string_loop fuel' quote_char (advance lx1)
                  (result ++ [decode_escape quote_char e])
            | None => Raise TypeError
            end
          else
            read_string_loop fuel' quote_char (advance lx) (result ++ [c])
      end
  end.

Definition read_string (lx : Lexer) : outcome (Lexer * Token) :=
  let start_column := cur_column lx in
  let quote_char := current_char lx in
  let lx0 := advance lx in
  bind (read_string_loop (budget lx0) quote_char lx0 [])
    (fun '(lx1, result) =>
       if option_char_eqb (current_char lx1) quote_char then
         let lx2 := advance lx1 in
         Return (lx2, mkToken STRING result (cur_line lx2) start_column)
       else Raise (UnterminatedString (cur_line lx1) start_column)).

Definition read_identifier (lx : Lexer) : Lexer * Token :=
  let start_column := cur_column lx in
  let '(lx1, result) :=
    scan_while (fun c => isalnum ucd c || N.eqb c UNDERSCORE)
               (budget lx) lx [] in
  let token_type := dict_get keywords result IDENTIFIER in
  (lx1, mkToken token_type result (cur_line lx1) start_column).

Definition single_char_tokens : list (char * TokenType) :=
  [ (ch "+", PLUS); (ch "-", MINUS); (ch "*", MULTIPLY); (ch "/", DIVIDE);
    (ch "=", ASSIGN); (ch "<", LESS_THAN); (ch ">", GREATER_THAN);
    (ch "(", LEFT_PAREN); (ch ")", RIGHT_PAREN);
    (ch "[", LEFT_BRACKET); (ch "]", RIGHT_BRACKET); (ch ",", COMMA) ].

Fixpoint lookup_char {V : Type} (d : list (char * V)) (c : char) : option V :=
  match d with
  | [] => None
  | (k, v) :: d' => if N.eqb k c then Some v else lookup_char d' c
  end.

(** A two-character operator at the cursor: [self.current_char() == a
    and self.peek_char() == '=']. *)
Definition two_char_at (lx : Lexer) (c : char) (a : char) : bool :=
  N.eqb c a && option_char_eqb (peek_char lx 1) (Some (ch "=")).

Definition emit2 (lx : Lexer) (ty : TokenType) (s : string)
  : outcome (Lexer * list Token) :=
  Return (advance (advance lx),
          [mkToken ty (py s) (cur_line lx) (cur_column lx)]).

(** One turn of the [while] loop of [tokenize], entered with
    [self.current_char() = c]: the state at the [continue] and the
    tokens appended, or the exception raised. *)
Definition tokenize_step (lx : Lexer) (c : char)
  : outcome (Lexer * list Token) :=
  if char_in c [SPACE; TAB] then Return (skip_whitespace lx, [])
  else if N.eqb c LF then
    Return (advance lx,
            [mkToken NEWLINE [BACKSLASH; ch "n"] (cur_line lx) (cur_column lx)])
  else if isdigit ucd c then
    let '(lx', t) := read_number lx in Return (lx', [t])
  else if char_in c [DQUOTE; SQUOTE] then
    bind (read_string lx) (fun '(lx', t) => Return (lx', [t]))
  else if isalpha ucd c || N.eqb c UNDERSCORE then
    let '(lx', t) := read_identifier lx in Return (lx', [t])
  else if two_char_at lx c (ch "=") then emit2 lx EQUAL "=="
  else if two_char_at lx c (ch "!") then emit2 lx NOT_EQUAL "!="
  else if two_char_at lx c (ch "<") then emit2 lx LESS_EQUAL "<="
  else if two_char_at lx c (ch ">") then emit2 lx GREATER_EQUAL ">="
  else
    match lookup_char single_char_tokens c with
    | Some token_type =>
        Return (advance lx,
                [mkToken token_type [c] (cur_line lx) (cur_column lx)])
    | None =>
        Raise (UnexpectedCharacter c (cur_line lx) (cur_column lx))
    end.

(** The [while self.current_char():] loop and the final append of the
    end-of-file token.  [None] is a run that used up its fuel. *)
Fixpoint tokenize_loop (fuel : nat) (lx : Lexer) (tokens : list Token)
  : option (outcome (list Token)) :=
  match fuel with
  | 0 => None
  | S fuel' =>
      match current_char lx with
      | None =>
          Some (Return
            (tokens ++ [mkToken EOF [] (cur_line lx) (cur_column lx)]))
      | Some c =>
          match tokenize_step lx c with
          | Return (lx', new) => tokenize_loop fuel' lx' (tokens ++ new)
          | Raise e => Some (Raise e)
          end
      end
  end.

(** [Lexer.tokenize], and [Lexer(text).tokenize()]. *)
Definition tokenize (lx : Lexer) : option (outcome (list Token)) :=
  tokenize_loop (S (budget lx)) lx [].

Definition lex (t : str) : option (outcome (list Token)) :=
  tokenize (Lexer_init t).
End Readers.

(** * The vocabulary of the properties *)

(** ** The cursor over the text *)

Definition cursor (lx : Lexer) : nat * nat := (cur_line lx, cur_column lx).

(** The line and column after a character has been passed. *)
Definition next_pos (lc : nat * nat) (c : char) : nat * nat :=
  if N.eqb c LF then (fst lc + 1, 1) else (fst lc, snd lc + 1).

Definition pos_after (lc : nat * nat) (s : str) : nat * nat :=
  fold_left next_pos s lc.

Fixpoint take_while (p : char -> bool) (s : str) : str :=
  match s with
  | c :: s' => if p c then c :: take_while p s' else []
  | [] => []
  end.

Fixpoint drop_while (p : char -> bool) (s : str) : str :=
  match s with
  | c :: s' => if p c then drop_while p s' else s
  | [] => []
  end.

Definition is_hspace (c : char) : bool := char_in c [SPACE; TAB].

(** Blank or line feed. *)
Definition is_blank (c : char) : bool := is_hspace c || N.eqb c LF.

Section Vocabulary.
Variable ucd : UnicodeData.

(** The text of a number and what follows it, in the words of the
    specification: the longest run of digits, then, if the very next
    character is a dot, that dot and the longest run of digits after
    it. *)
Definition number_span (s : str) : str * str :=
  let int_part := take_while (isdigit ucd) s in
  match drop_while (isdigit ucd) s with
  | c :: r =>
      if N.eqb c DOT
      then (int_part ++ DOT :: take_while (isdigit ucd) r,
            drop_while (isdigit ucd) r)
      else (int_part, c :: r)
  | [] => (int_part, [])
  end.

Definition ident_char (c : char) : bool := isalnum ucd c || N.eqb c UNDERSCORE.

End Vocabulary.

(** The decoding of one escaped character, in the words of the
    specification. *)
Definition unescape (q : char) (e : char) : char :=
  if N.eqb e (ch "n") then LF            (* n: newline *)
  else if N.eqb e (ch "t") then TAB      (* t: tab *)
  else if N.eqb e BACKSLASH then BACKSLASH
  else if N.eqb e q then q               (* the matching quote: itself *)
  else e.                                (* any other character: itself *)

(** The decoded value of the raw text between two quotes. *)
Fixpoint decode (q : char) (raw : str) : str :=
  match raw with
  | [] => []
  | c :: r =>
      if N.eqb c BACKSLASH then
        match r with
        | e :: r' => unescape q e :: decode q r'
        | [] => []
        end
      else c :: decode q r
  end.

(** [raw] is the whole body of a literal quoted by [q]: no quote in it
    but after a backslash, and no backslash left without a character
    after it. *)
Fixpoint closed_body (q : char) (raw : str) : bool :=
  match raw with
  | [] => true
  | c :: r =>
      if N.eqb c q then false
      else if N.eqb c BACKSLASH then
        match r with
        | _ :: r' => closed_body q r'
        | [] => false
        end
      else closed_body q r
  end.

(** The token kinds whose text is the very characters read. *)
Definition literal_kind (ty : TokenType) : bool :=
  match ty with
  | STRING | NEWLINE | EOF | WHITESPACE => false
  | _ => true
  end.

(** [spells t span]: the characters [span] of the source are what the
    token [t] was read from.  The text of a string token is decoded, so
    its source is some quoted closed body that decodes to it; a newline
    token stands for a line feed; every other token carries its source,
    which has no blank and no line feed in it. *)
Definition spells (t : Token) (span : str) : Prop :=
  match type t with
  | STRING =>
      exists q raw, (q = DQUOTE \/ q = SQUOTE) /\ span = q :: raw ++ [q] /\
                    closed_body q raw = true /\ value t = decode q raw
  | NEWLINE => span = [LF]
  | EOF => span = []
  | WHITESPACE => False
  | _ => span = value t /\ Forall (fun c => is_blank c = false) span
  end.

(** What a turn of the loop that does not raise has done: it has
    passed a non-empty [span] of the remaining text, which is either a
    run of blanks, with no token, or the source of the one token added,
    whose column is the column where the turn started, and whose line
    is the line where it started unless it is a string. *)
Definition step_post (lx lx' : Lexer) (new : list Token) (span : str) : Prop :=
  span <> [] /\
  remaining lx = span ++ remaining lx' /\
  text lx' = text lx /\
  cursor lx' = pos_after (cursor lx) span /\
  ((new = [] /\ Forall (fun c => is_hspace c = true) span) \/
   (exists t, new = [t] /\ spells t span /\ type t <> EOF /\
              column t = cur_column lx /\
              (type t <> STRING -> line t = cur_line lx) /\
              (type t = STRING -> line t = cur_line lx'))).

(** [reconstructs toks s]: the text [s] is the sources of the tokens
    [toks], in order, with blanks put back between them. *)
Inductive reconstructs : list Token -> str -> Prop :=
  | rec_nil : reconstructs [] []
  | rec_blank c toks s :
      is_hspace c = true -> reconstructs toks s -> reconstructs toks (c :: s)
  | rec_token t span toks s :
      spells t span -> reconstructs toks s -> reconstructs (t :: toks) (span ++ s).

(** [placed lc toks s]: as [reconstructs], with the cursor at line and
    column [lc] in front of [s], and with what every token reports: the
    column where its source starts, and the line where its source starts,
    but for a string token the line where its source ends. *)
Inductive placed : nat * nat -> list Token -> str -> Prop :=
  | placed_nil lc : placed lc [] []
  | placed_blank lc c toks s :
      is_hspace c = true -> placed (next_pos lc c) toks s ->
      placed lc toks (c :: s)
  | placed_token lc t span toks s :
      spells t span ->
      column t = snd lc ->
      line t = match type t with
               | STRING => fst (pos_after lc span)
               | _ => fst lc
               end ->
      placed (pos_after lc span) toks s ->
      placed lc (t :: toks) (span ++ s).

(** The source of a token whose text is not decoded. *)
Definition source (t : Token) : str :=
  match type t with
  | NEWLINE => [LF]
  | EOF => []
  | _ => value t
  end.

Definition strip_blanks (s : str) : str := filter (fun c => negb (is_hspace c)) s.

(** The kind of the two-character operator that starts with [c]. *)
Definition two_char_kind (c : char) : TokenType :=
  if N.eqb c (ch "=") then EQUAL
  else if N.eqb c (ch "!") then NOT_EQUAL
  else if N.eqb c (ch "<") then LESS_EQUAL
  else GREATER_EQUAL.

(** ** Vocabulary of the further properties *)

(** [advance] called [n] times. *)
Definition advance_n (n : nat) (lx : Lexer) : Lexer := Nat.iter n advance lx.

(** The characters of a text after its last line feed. *)
Definition last_line (s : str) : str :=
  rev (take_while (fun c => negb (N.eqb c LF)) (rev s)).

(** The position a token reports, and the order of positions in a
    text: an earlier line, or the same line and an earlier column. *)
Definition reported (t : Token) : nat * nat := (line t, column t).

Definition pos_lt (a b : nat * nat) : Prop :=
  fst a < fst b \/ (fst a = fst b /\ snd a < snd b).

Definition pos_le (a b : nat * nat) : Prop := a = b \/ pos_lt a b.

(** The text that every token of a kind carries, for the kinds that
    have one. *)
Definition fixed_text (ty : TokenType) : option str :=
  match ty with
  | PLUS => Some (py "+")
  | MINUS => Some (py "-")
  | MULTIPLY => Some (py "*")
  | DIVIDE => Some (py "/")
  | EQUAL => Some (py "==")
  | NOT_EQUAL => Some (py "!=")
  | LESS_THAN => Some (py "<")
  | GREATER_THAN => Some (py ">")
  | LESS_EQUAL => Some (py "<=")
  | GREATER_EQUAL => Some (py ">=")
  | ASSIGN => Some (py "=")
  | LEFT_PAREN => Some (py "(")
  | RIGHT_PAREN => Some (py ")")
  | LEFT_BRACKET => Some (py "[")
  | RIGHT_BRACKET => Some (py "]")
  | COMMA => Some (py ",")
  | IF => Some (py "if")
  | WHILE => Some (py "while")
  | FOR => Some (py "for")
  | PRINT => Some (py "print")
  | NEWLINE => Some [BACKSLASH; ch "n"]
  | EOF => Some []
  | NUMBER | STRING | IDENTIFIER | WHITESPACE => None
  end.

Section FurtherVocabulary.
Variable ucd : UnicodeData.

(** A character that starts some turn of the loop of [tokenize] without
    a look at the next one. *)
Definition recognised (c : char) : bool :=
  is_hspace c || N.eqb c LF || isdigit ucd c || char_in c [DQUOTE; SQUOTE]
  || isalpha ucd c || N.eqb c UNDERSCORE || char_in c (py "+-*/=<>()[],").

(** The shape of the text of a number: digits, at least one, and then
    possibly a dot and digits, possibly none. *)
Definition number_text (s : str) : Prop :=
  exists int_part frac_part,
    int_part <> [] /\
    Forall (fun c => isdigit ucd c = true) int_part /\
    Forall (fun c => isdigit ucd c = true) frac_part /\
    (s = int_part \/ s = int_part ++ DOT :: frac_part).

(** The shape of the text of an identifier or keyword: a letter or an
    underscore, then alphanumeric characters and underscores. *)
Definition identifier_text (s : str) : Prop :=
  match s with
  | c :: _ => isalpha ucd c || N.eqb c UNDERSCORE = true
  | [] => False
  end /\
  Forall (fun c => ident_char ucd c = true) s.

(** What holds of every token of a run. *)
Definition token_ok (t : Token) : Prop :=
  match type t with
  | NUMBER => number_text (value t)
  | IDENTIFIER => identifier_text (value t) /\ ~ In (value t) (map fst keywords)
  | STRING => True
  | WHITESPACE => False
  | ty => fixed_text ty = Some (value t)
  end.

(** A letter, a digit or an underscore, with [str.isalpha] for the
    letters and [str.isdigit] for the digits. *)
Definition letter_digit_underscore (c : char) : bool :=
  isalpha ucd c || isdigit ucd c || N.eqb c UNDERSCORE.

End FurtherVocabulary.

(** [turns ucd lx done lx']: from the state [lx] the loop of [tokenize]
    makes some turns, none of which raises, that add the tokens [done]
    and leave the state [lx']. *)
Inductive turns (ucd : UnicodeData) : Lexer -> list Token -> Lexer -> Prop :=
  | turns_none lx : turns ucd lx [] lx
  | turns_more lx c lx1 new done lx' :
      current_char lx = Some c ->
      tokenize_step ucd lx c = Return (lx1, new) ->
      turns ucd lx1 done lx' ->
      turns ucd lx (new ++ done) lx'.

(** A database in which the fraction one half, U+00BD, is numeric and
    neither alphabetic, decimal nor digit, as [str.isnumeric],
    [str.isalpha], [str.isdecimal] and [str.isdigit] have it, and which
    holds nothing else outside ASCII. *)
Definition numeric_half : UnicodeData :=
  {| uni_isalpha := fun _ => false; uni_isdecimal := fun _ => false;
     uni_isdigit := fun _ => false; uni_isnumeric := fun c => N.eqb c 189 |}.

(** The number of NEWLINE tokens of a sequence. *)
Definition is_newline (t : Token) : bool :=
  match type t with
  | NEWLINE => true
  | _ => false
  end.

Definition newline_count (toks : list Token) : nat :=
  length (filter is_newline toks).

(** The text of the example at the end of [analisador.py]. *)
Definition demo_code : str :=
  [LF] ++ py "    x = 2 + 3" ++ [LF]
  ++ py "    y = x * 4" ++ [LF]
  ++ py "    name = " ++ [DQUOTE] ++ py "Jo" ++ [227%N] ++ py "o" ++ [DQUOTE; LF]
  ++ py "    if x > 0:" ++ [LF]
  ++ py "        print(" ++ [DQUOTE] ++ py "N" ++ [250%N] ++ py "mero positivo"
  ++ [DQUOTE] ++ py ")" ++ [LF]
  ++ py "    ".

(** * Facts about the embedding *)

(** ** The cursor over the text *)

Lemma take_drop_while p s : take_while p s ++ drop_while p s = s.
Proof.
  induction s as [|c s IH]; simpl; [reflexivity|].
  destruct (p c); simpl; [now rewrite IH | reflexivity].
Qed.

Lemma drop_while_head p s c r : drop_while p s = c :: r -> p c = false.
Proof.
  induction s as [|d s IH]; simpl; [discriminate|].
  destruct (p d) eqn:E; [exact IH|].
  intros H; injection H as -> _; exact E.
Qed.

Lemma nth_error_skipn_hd (s : str) n : nth_error s n = hd_error (skipn n s).
Proof.
  revert s; induction n as [|n IH]; intros [|c s]; simpl; auto.
Qed.

Lemma skipn_S_tl (s : str) n : skipn (S n) s = tl (skipn n s).
Proof.
  revert s; induction n as [|n IH]; intros [|c s]; auto.
  change (skipn (S (S n)) (c :: s)) with (skipn (S n) s).
  change (skipn (S n) (c :: s)) with (skipn n s). apply IH.
Qed.

Lemma current_char_hd lx : current_char lx = hd_error (remaining lx).
Proof. apply nth_error_skipn_hd. Qed.

Lemma text_advance lx : text (advance lx) = text lx.
Proof. unfold advance; destruct (match _ with Some _ => _ | None => _ end); reflexivity. Qed.

Lemma pos_advance lx : pos (advance lx) = S (pos lx).
Proof.
  unfold advance; destruct (match _ with Some _ => _ | None => _ end); simpl; lia.
Qed.

Lemma remaining_advance lx : remaining (advance lx) = tl (remaining lx).
Proof.
  unfold remaining. rewrite text_advance, pos_advance. apply skipn_S_tl.
Qed.

Lemma budget_length lx : budget lx = length (remaining lx).
Proof. unfold budget, remaining. now rewrite length_skipn. Qed.

Lemma cursor_advance lx c :
  current_char lx = Some c -> cursor (advance lx) = next_pos (cursor lx) c.
Proof.
  unfold current_char, advance, cursor, next_pos. intros ->.
  destruct (N.eqb c LF); reflexivity.
Qed.

(** What one [advance] over a character [c] does, read on [remaining]. *)
Lemma advance_cons lx c r :
  remaining lx = c :: r ->
  current_char lx = Some c /\
  remaining (advance lx) = r /\
  text (advance lx) = text lx /\
  cursor (advance lx) = next_pos (cursor lx) c.
Proof.
  intros H.
  assert (Hc : current_char lx = Some c) by (rewrite current_char_hd, H; reflexivity).
  repeat split; auto.
  - now rewrite remaining_advance, H.
  - apply text_advance.
  - now apply cursor_advance.
Qed.

Lemma current_char_nil lx : remaining lx = [] -> current_char lx = None.
Proof. intros H. now rewrite current_char_hd, H. Qed.

Lemma remaining_init t : remaining (Lexer_init t) = t.
Proof. reflexivity. Qed.

(** The loop [scan_while], run with enough fuel, appends the longest
    prefix of the remaining text that satisfies [p] and stops in front
    of the rest. *)
Lemma scan_while_spec p fuel : forall lx result,
  length (remaining lx) <= fuel ->
  snd (scan_while p fuel lx result) = result ++ take_while p (remaining lx) /\
  remaining (fst (scan_while p fuel lx result)) = drop_while p (remaining lx) /\
  text (fst (scan_while p fuel lx result)) = text lx /\
  cursor (fst (scan_while p fuel lx result))
    = pos_after (cursor lx) (take_while p (remaining lx)).
Proof.
  induction fuel as [|fuel IH]; intros lx result Hlen.
  - destruct (remaining lx) eqn:E; simpl in *; [|lia].
    rewrite app_nil_r. repeat split; auto.
  - cbn [scan_while]. destruct (remaining lx) as [|c r] eqn:E.
    + rewrite (current_char_nil lx E). cbn. rewrite app_nil_r. repeat split; auto.
    + destruct (advance_cons _ _ _ E) as (Hc & Hr & Ht & Hp).
      rewrite Hc. cbn [take_while drop_while]. destruct (p c) eqn:Ep.
      * destruct (IH (advance lx) (result ++ [c])) as (H1 & H2 & H3 & H4).
        { rewrite Hr. simpl in Hlen. lia. }
        rewrite H1, H2, H3, H4, Hr, Ht, Hp, <- app_assoc. repeat split; auto.
      * cbn. rewrite app_nil_r. repeat split; auto.
Qed.

Lemma pos_after_app lc a b : pos_after lc (a ++ b) = pos_after (pos_after lc a) b.
Proof. apply fold_left_app. Qed.

(** On a text without line feed the line stays and the column counts
    the characters. *)
Lemma pos_after_same_line s : forall l k,
  Forall (fun c => N.eqb c LF = false) s ->
  pos_after (l, k) s = (l, k + length s).
Proof.
  induction s as [|c s IH]; intros l k H; simpl.
  - f_equal; lia.
  - inversion H as [|? ? Hc Hs]; subst. unfold pos_after in *. simpl.
    unfold next_pos at 2. rewrite Hc. simpl. rewrite IH by assumption.
    f_equal; lia.
Qed.

Lemma take_while_Forall p s : Forall (fun c => p c = true) (take_while p s).
Proof.
  induction s as [|c s IH]; simpl; [constructor|].
  destruct (p c) eqn:E; constructor; assumption.
Qed.

Lemma above_blank c : (32 < c)%N -> is_blank c = false.
Proof.
  intros H. unfold is_blank, is_hspace, char_in, SPACE, TAB, LF. simpl.
  rewrite !orb_false_iff, !N.eqb_neq. repeat split; lia.
Qed.

Section ReaderFacts.
Variable ucd : UnicodeData.

Lemma isdigit_above c : isdigit ucd c = true -> (32 < c)%N.
Proof.
  unfold isdigit, is_ascii, ascii_digit.
  destruct (N.ltb_spec c 128); [|intros _; lia].
  rewrite andb_true_iff, !N.leb_le. lia.
Qed.

Lemma isalnum_above c : isalnum ucd c = true -> (32 < c)%N.
Proof.
  unfold isalnum, isalpha, isdecimal, isdigit, isnumeric, is_ascii,
    ascii_letter, ascii_digit.
  destruct (N.ltb_spec c 128); [|intros _; lia].
  rewrite !orb_true_iff, !andb_true_iff, !N.leb_le. lia.
Qed.

Lemma isdigit_not_DOT c : isdigit ucd c = true -> N.eqb c DOT = false.
Proof.
  unfold isdigit, is_ascii, ascii_digit, DOT.
  destruct (N.ltb_spec c 128); [|intros _; apply N.eqb_neq; lia].
  rewrite andb_true_iff, !N.leb_le. intros [? ?]. apply N.eqb_neq; lia.
Qed.

(** On ASCII, [isalnum] is letter or digit. *)
Lemma isalnum_ascii c :
  is_ascii c = true -> isalnum ucd c = isalpha ucd c || isdigit ucd c.
Proof.
  unfold isalnum, isalpha, isdecimal, isdigit, isnumeric. intros ->.
  destruct (ascii_letter c), (ascii_digit c); reflexivity.
Qed.

Lemma isalpha_isalnum c : isalpha ucd c = true -> isalnum ucd c = true.
Proof. unfold isalnum. intros ->. reflexivity. Qed.

(** *** The number reader *)

Lemma number_span_app s :
  fst (number_span ucd s) ++ snd (number_span ucd s) = s.
Proof.
  unfold number_span.
  pose proof (take_drop_while (isdigit ucd) s) as H.
  destruct (drop_while (isdigit ucd) s) as [|c r] eqn:E; simpl.
  - rewrite app_nil_r. now rewrite app_nil_r in H.
  - destruct (N.eqb_spec c DOT) as [->|]; simpl; [|exact H].
    rewrite <- app_assoc. simpl. now rewrite take_drop_while.
Qed.

Lemma number_span_solid s :
  Forall (fun c => is_blank c = false) (fst (number_span ucd s)).
Proof.
  assert (D : forall t, Forall (fun c => is_blank c = false)
                          (take_while (isdigit ucd) t)).
  { intros t. eapply Forall_impl; [|apply take_while_Forall].
    intros c Hc. now apply above_blank, isdigit_above. }
  unfold number_span. destruct (drop_while (isdigit ucd) s) as [|c r]; simpl; auto.
  destruct (N.eqb c DOT); simpl; auto.
  apply Forall_app; split; auto.
Qed.

Lemma number_span_same_line s :
  Forall (fun c => N.eqb c LF = false) (fst (number_span ucd s)).
Proof.
  eapply Forall_impl; [|apply number_span_solid].
  unfold is_blank. intros c Hc. now apply orb_false_iff in Hc.
Qed.

Lemma read_number_spec lx :
  snd (read_number ucd lx)
    = mkToken NUMBER (fst (number_span ucd (remaining lx)))
              (cur_line lx) (cur_column lx) /\
  remaining (fst (read_number ucd lx)) = snd (number_span ucd (remaining lx)) /\
  text (fst (read_number ucd lx)) = text lx /\
  cursor (fst (read_number ucd lx))
    = pos_after (cursor lx) (fst (number_span ucd (remaining lx))).
Proof.
  assert (G :
    snd (read_number ucd lx)
      = mkToken NUMBER (fst (number_span ucd (remaining lx)))
                (cur_line (fst (read_number ucd lx))) (cur_column lx) /\
    remaining (fst (read_number ucd lx)) = snd (number_span ucd (remaining lx)) /\
    text (fst (read_number ucd lx)) = text lx /\
    cursor (fst (read_number ucd lx))
      = pos_after (cursor lx) (fst (number_span ucd (remaining lx)))).
  { unfold read_number, number_span.
    destruct (scan_while_spec (isdigit ucd) (budget lx) lx [])
      as (H1 & H2 & H3 & H4); [rewrite budget_length; lia|].
    destruct (scan_while (isdigit ucd) (budget lx) lx []) as [lx1 res1].
    simpl in H1, H2, H3, H4. subst res1.
    rewrite current_char_hd, H2.
    destruct (drop_while (isdigit ucd) (remaining lx)) as [|c r] eqn:E.
    - simpl. repeat split; auto.
    - simpl. unfold DOT at 1. fold DOT. destruct (N.eqb_spec c DOT) as [->|Hne].
      + destruct (advance_cons _ _ _ H2) as (Hc & Hr & Ht & Hp).
        destruct (scan_while_spec (isdigit ucd) (budget (advance lx1))
                    (advance lx1)
                    (take_while (isdigit ucd) (remaining lx) ++ [DOT]))
          as (K1 & K2 & K3 & K4); [rewrite budget_length; lia|].
        destruct (scan_while (isdigit ucd) (budget (advance lx1)) (advance lx1)
                    (take_while (isdigit ucd) (remaining lx) ++ [DOT]))
          as [lx2 res2].
        simpl in K1, K2, K3, K4. subst res2. rewrite Hr in *.
        rewrite <- app_assoc. simpl. repeat split; auto.
        * congruence.
        * rewrite K4, Hp, H4, pos_after_app. reflexivity.
      + simpl. repeat split; auto. }
  destruct G as (G1 & G2 & G3 & G4). repeat split; auto.
  rewrite G1. f_equal.
  unfold cursor in G4. destruct (cursor lx) as [l k] eqn:Ec.
  rewrite pos_after_same_line in G4 by apply number_span_same_line.
  unfold cursor in Ec. congruence.
Qed.

(** *** The identifier reader *)

Lemma ident_char_solid c : ident_char ucd c = true -> is_blank c = false.
Proof.
  unfold ident_char. rewrite orb_true_iff. intros [H|H].
  - now apply above_blank, isalnum_above.
  - apply N.eqb_eq in H. subst c. reflexivity.
Qed.

Lemma ident_char_not_LF c : ident_char ucd c = true -> N.eqb c LF = false.
Proof.
  intros H. apply ident_char_solid in H. unfold is_blank in H.
  now apply orb_false_iff in H.
Qed.

Lemma read_identifier_spec lx :
  snd (read_identifier ucd lx)
    = mkToken (dict_get keywords (take_while (ident_char ucd) (remaining lx)) IDENTIFIER)
              (take_while (ident_char ucd) (remaining lx))
              (cur_line lx) (cur_column lx) /\
  remaining (fst (read_identifier ucd lx))
    = drop_while (ident_char ucd) (remaining lx) /\
  text (fst (read_identifier ucd lx)) = text lx /\
  cursor (fst (read_identifier ucd lx))
    = pos_after (cursor lx) (take_while (ident_char ucd) (remaining lx)).
Proof.
  unfold read_identifier.
  destruct (scan_while_spec (ident_char ucd) (budget lx) lx [])
    as (H1 & H2 & H3 & H4); [rewrite budget_length; lia|].
  change (fun c : char => isalnum ucd c || N.eqb c UNDERSCORE) with (ident_char ucd).
  destruct (scan_while (ident_char ucd) (budget lx) lx []) as [lx1 res1].
  simpl in H1, H2, H3, H4. subst res1. simpl. repeat split; auto.
  f_equal. unfold cursor in H4. destruct (cursor lx) as [l k] eqn:Ec.
  rewrite pos_after_same_line in H4.
  - unfold cursor in Ec. congruence.
  - eapply Forall_impl; [|apply take_while_Forall]. apply ident_char_not_LF.
Qed.
End ReaderFacts.

(** *** The string reader *)

Lemma decode_escape_unescape q e : decode_escape (Some q) e = unescape q e.
Proof.
  unfold decode_escape, unescape, is_quote.
  destruct (N.eqb e (ch "n")); [reflexivity|].
  destruct (N.eqb e (ch "t")); [reflexivity|].
  destruct (N.eqb e BACKSLASH); [reflexivity|].
  destruct (N.eqb_spec e q); congruence.
Qed.

(** The loop of [read_string] over a closed body stops on the closing
    quote with the decoded value. *)
Lemma read_string_loop_closed fuel : forall q raw rest lx result,
  remaining lx = raw ++ q :: rest ->
  closed_body q raw = true ->
  length (remaining lx) <= fuel ->
  exists lx',
    read_string_loop fuel (Some q) lx result = Return (lx', result ++ decode q raw) /\
    remaining lx' = q :: rest /\
    text lx' = text lx /\
    cursor lx' = pos_after (cursor lx) raw.
Proof.
  induction fuel as [|fuel IH]; intros q raw rest lx result Hrem Hcl Hlen.
  - rewrite Hrem, length_app in Hlen. simpl in Hlen. lia.
  - cbn [read_string_loop]. destruct raw as [|c raw].
    + simpl in Hrem. destruct (advance_cons _ _ _ Hrem) as (Hc & _).
      rewrite Hc. simpl. rewrite N.eqb_refl. exists lx.
      rewrite app_nil_r. auto.
    + simpl in Hrem. destruct (advance_cons _ _ _ Hrem) as (Hc & Hr & Ht & Hp).
      rewrite Hc. cbn [is_quote]. cbn [closed_body] in Hcl.
      destruct (N.eqb c q); [discriminate|].
      cbn [decode]. destruct (N.eqb c BACKSLASH).
      * destruct raw as [|e raw]; [discriminate|]. simpl in Hr.
        destruct (advance_cons _ _ _ Hr) as (Hc1 & Hr1 & Ht1 & Hp1).
        rewrite Hc1.
        destruct (IH q raw rest (advance (advance lx))
                    (result ++ [decode_escape (Some q) e]) Hr1 Hcl)
          as (lx' & E & R & T & P).
        { rewrite Hr1. rewrite Hrem in Hlen. simpl in Hlen.
          rewrite length_app in *. simpl in *. lia. }
        exists lx'. rewrite E, <- app_assoc, decode_escape_unescape.
        repeat split; auto; [congruence|].
        rewrite P, Hp1, Hp. reflexivity.
      * destruct (IH q raw rest (advance lx) (result ++ [c]) Hr Hcl)
          as (lx' & E & R & T & P).
        { rewrite Hr. rewrite Hrem in Hlen. simpl in Hlen. lia. }
        exists lx'. rewrite E, <- app_assoc.
        repeat split; auto; [congruence|].
        rewrite P, Hp. reflexivity.
Qed.

(** Conversely, when the loop returns it has passed a closed body and
    stands on the closing quote or at the end of the text. *)
Lemma read_string_loop_inv fuel : forall q lx result lx' result',
  length (remaining lx) <= fuel ->
  read_string_loop fuel (Some q) lx result = Return (lx', result') ->
  exists raw,
    remaining lx = raw ++ remaining lx' /\
    closed_body q raw = true /\
    result' = result ++ decode q raw /\
    text lx' = text lx /\
    cursor lx' = pos_after (cursor lx) raw /\
    (remaining lx' = [] \/ exists rest, remaining lx' = q :: rest).
Proof.
  induction fuel as [|fuel IH]; intros q lx result lx' result' Hlen Hrun.
  - simpl in Hrun. injection Hrun as <- <-.
    destruct (remaining lx) eqn:E; [|simpl in Hlen; lia].
    exists []. rewrite ?E, ?app_nil_r. repeat split; auto.
  - cbn [read_string_loop] in Hrun.
    destruct (remaining lx) as [|c r] eqn:E.
    + rewrite (current_char_nil lx E) in Hrun. injection Hrun as <- <-.
      exists []. rewrite ?E, ?app_nil_r. repeat split; auto.
    + destruct (advance_cons _ _ _ E) as (Hc & Hr & Ht & Hp).
      rewrite Hc in Hrun. cbn [is_quote] in Hrun.
      destruct (N.eqb_spec c q) as [->|Hq].
      * injection Hrun as <- <-. exists []. rewrite ?E, ?app_nil_r.
        repeat split; auto. right. now exists r.
      * destruct (N.eqb c BACKSLASH) eqn:Eb.
        -- destruct r as [|e r].
           { rewrite (current_char_nil _ Hr) in Hrun. discriminate. }
           destruct (advance_cons _ _ _ Hr) as (Hc1 & Hr1 & Ht1 & Hp1).
           rewrite Hc1 in Hrun.
           apply IH in Hrun; [|rewrite Hr1; simpl in Hlen; lia].
           destruct Hrun as (raw & R & C & D & T & P & Q).
           exists (c :: e :: raw). rewrite Hr1 in R. subst r.
           cbn [closed_body decode]. rewrite Eb.
           destruct (N.eqb_spec c q) as [|_]; [contradiction|].
           rewrite D, <- app_assoc, decode_escape_unescape.
           repeat split; auto; [congruence|].
           rewrite P, Hp1, Hp. reflexivity.
        -- apply IH in Hrun; [|rewrite Hr; simpl in Hlen; lia].
           destruct Hrun as (raw & R & C & D & T & P & Q).
           exists (c :: raw). rewrite Hr in R. subst r.
           cbn [closed_body decode]. rewrite Eb.
           destruct (N.eqb_spec c q) as [|_]; [contradiction|].
           rewrite D, <- app_assoc.
           repeat split; auto; [congruence|].
           rewrite P, Hp. reflexivity.
Qed.

(** The loop over a closed body that runs up to the end of the text
    stops there with the decoded value. *)
Lemma read_string_loop_open fuel : forall q raw lx result,
  remaining lx = raw ->
  closed_body q raw = true ->
  length raw <= fuel ->
  exists lx',
    read_string_loop fuel (Some q) lx result = Return (lx', result ++ decode q raw) /\
    remaining lx' = [] /\
    cursor lx' = pos_after (cursor lx) raw.
Proof.
  induction fuel as [|fuel IH]; intros q raw lx result Hrem Hcl Hlen.
  - destruct raw; [|simpl in Hlen; lia]. exists lx. simpl.
    rewrite app_nil_r. auto.
  - cbn [read_string_loop]. destruct raw as [|c raw].
    + rewrite (current_char_nil lx Hrem). exists lx. simpl.
      rewrite app_nil_r. auto.
    + destruct (advance_cons _ _ _ Hrem) as (Hc & Hr & Ht & Hp).
      rewrite Hc. cbn [is_quote]. cbn [closed_body] in Hcl.
      destruct (N.eqb c q); [discriminate|].
      cbn [decode]. destruct (N.eqb c BACKSLASH).
      * destruct raw as [|e raw]; [discriminate|].
        destruct (advance_cons _ _ _ Hr) as (Hc1 & Hr1 & Ht1 & Hp1).
        rewrite Hc1.
        destruct (IH q raw (advance (advance lx))
                    (result ++ [decode_escape (Some q) e]) Hr1 Hcl)
          as (lx' & E & R & P); [simpl in Hlen; lia|].
        exists lx'. rewrite E, <- app_assoc, decode_escape_unescape.
        repeat split; auto. rewrite P, Hp1, Hp. reflexivity.
      * destruct (IH q raw (advance lx) (result ++ [c]) Hr Hcl)
          as (lx' & E & R & P); [simpl in Hlen; lia|].
        exists lx'. rewrite E, <- app_assoc.
        repeat split; auto. rewrite P, Hp. reflexivity.
Qed.

(** The loop over a closed body followed by a last backslash raises. *)
Lemma read_string_loop_dangling fuel : forall q raw lx result,
  q <> BACKSLASH ->
  remaining lx = raw ++ [BACKSLASH] ->
  closed_body q raw = true ->
  length (remaining lx) <= fuel ->
  read_string_loop fuel (Some q) lx result = Raise TypeError.
Proof.
  induction fuel as [|fuel IH]; intros q raw lx result Hq Hrem Hcl Hlen.
  - rewrite Hrem, length_app in Hlen. simpl in Hlen. lia.
  - cbn [read_string_loop]. destruct raw as [|c raw].
    + simpl in Hrem. destruct (advance_cons _ _ _ Hrem) as (Hc & Hr & _).
      rewrite Hc. cbn [is_quote].
      destruct (N.eqb_spec BACKSLASH q) as [E|_]; [now elim Hq|].
      rewrite N.eqb_refl, (current_char_nil _ Hr). reflexivity.
    + simpl in Hrem. destruct (advance_cons _ _ _ Hrem) as (Hc & Hr & _).
      rewrite Hc. cbn [is_quote]. cbn [closed_body] in Hcl.
      destruct (N.eqb c q); [discriminate|].
      destruct (N.eqb c BACKSLASH).
      * destruct raw as [|e raw]; [discriminate|]. simpl in Hr.
        destruct (advance_cons _ _ _ Hr) as (Hc1 & Hr1 & _).
        rewrite Hc1. apply (IH q raw); auto.
        rewrite Hr1. rewrite Hrem in Hlen. simpl in Hlen. lia.
      * apply (IH q raw); auto.
        rewrite Hr. rewrite Hrem in Hlen. simpl in Hlen. lia.
Qed.

(** A literal that the text ends before closing: the failure carries
    the line where the text ends and the column of the opening quote. *)
Lemma read_string_unterminated lx q raw :
  remaining lx = q :: raw ->
  closed_body q raw = true ->
  read_string lx
    = Raise (UnterminatedString (fst (pos_after (cursor lx) (q :: raw)))
                                (cur_column lx)).
Proof.
  intros Hrem Hcl. unfold read_string.
  destruct (advance_cons _ _ _ Hrem) as (Hc & Hr & Ht & Hp). rewrite Hc.
  destruct (read_string_loop_open (budget (advance lx)) q raw (advance lx) []
              Hr Hcl) as (lx1 & E & R & P).
  { rewrite budget_length, Hr. lia. }
  rewrite E. cbn [bind]. rewrite (current_char_nil _ R). cbn [option_char_eqb].
  do 2 f_equal. change (q :: raw) with ([q] ++ raw).
  rewrite pos_after_app. fold (cursor lx).
  change (pos_after (cursor lx) [q]) with (next_pos (cursor lx) q).
  rewrite <- Hp, <- P. reflexivity.
Qed.

(** A literal cut after a backslash: the reader adds [None] to a
    string. *)
Lemma read_string_dangling_backslash lx q raw :
  q <> BACKSLASH ->
  remaining lx = q :: raw ++ [BACKSLASH] ->
  closed_body q raw = true ->
  read_string lx = Raise TypeError.
Proof.
  intros Hq Hrem Hcl. unfold read_string.
  destruct (advance_cons _ _ _ Hrem) as (Hc & Hr & _). rewrite Hc.
  rewrite (read_string_loop_dangling (budget (advance lx)) q raw); auto.
  rewrite budget_length. lia.
Qed.

Lemma read_string_closed lx q raw rest :
  remaining lx = q :: raw ++ q :: rest ->
  closed_body q raw = true ->
  exists lx',
    read_string lx
      = Return (lx', mkToken STRING (decode q raw) (cur_line lx') (cur_column lx)) /\
    remaining lx' = rest /\
    text lx' = text lx /\
    cursor lx' = pos_after (cursor lx) (q :: raw ++ [q]).
Proof.
  intros Hrem Hcl. unfold read_string.
  destruct (advance_cons _ _ _ Hrem) as (Hc & Hr & Ht & Hp). rewrite Hc.
  destruct (read_string_loop_closed (budget (advance lx)) q raw rest
              (advance lx) [] Hr Hcl) as (lx1 & E & R & T & P).
  { rewrite budget_length. lia. }
  rewrite E. cbn [bind app].
  destruct (advance_cons _ _ _ R) as (Hc1 & Hr1 & Ht1 & Hp1).
  rewrite Hc1. cbn [option_char_eqb]. rewrite N.eqb_refl.
  exists (advance lx1). repeat split; auto; [congruence|].
  rewrite Hp1, P, Hp. change (q :: raw ++ [q]) with ([q] ++ raw ++ [q]).
  rewrite !pos_after_app. reflexivity.
Qed.

Lemma read_string_inv lx q r lx' t :
  remaining lx = q :: r ->
  read_string lx = Return (lx', t) ->
  exists raw,
    remaining lx = q :: raw ++ q :: remaining lx' /\
    closed_body q raw = true /\
    t = mkToken STRING (decode q raw) (cur_line lx') (cur_column lx) /\
    text lx' = text lx /\
    cursor lx' = pos_after (cursor lx) (q :: raw ++ [q]).
Proof.
  intros Hrem Hrun. unfold read_string in Hrun.
  destruct (advance_cons _ _ _ Hrem) as (Hc & Hr & Ht & Hp). rewrite Hc in Hrun.
  destruct (read_string_loop (budget (advance lx)) (Some q) (advance lx) [])
    as [[lx1 res]|e] eqn:E; [|discriminate].
  apply read_string_loop_inv in E; [|rewrite budget_length; lia].
  destruct E as (raw & R & C & D & T & P & Q).
  cbn [bind] in Hrun. rewrite current_char_hd in Hrun.
  destruct Q as [Q|[rest Q]]; rewrite Q in Hrun; cbn in Hrun; [discriminate|].
  rewrite N.eqb_refl in Hrun. injection Hrun as <- <-.
  destruct (advance_cons _ _ _ Q) as (Hc1 & Hr1 & Ht1 & Hp1).
  exists raw. rewrite Hr1. rewrite Hr, Q in R. subst r res.
  repeat split; auto; [congruence|].
  rewrite Hp1, P, Hp. change (q :: raw ++ [q]) with ([q] ++ raw ++ [q]).
  rewrite !pos_after_app. reflexivity.
Qed.

(** ** One turn of the loop of [tokenize] *)

Lemma spells_literal t span :
  literal_kind (type t) = true ->
  span = value t ->
  Forall (fun c => is_blank c = false) span ->
  spells t span.
Proof. unfold spells. destruct (type t); simpl; auto; discriminate. Qed.

Lemma peek_char_1 lx : peek_char lx 1 = hd_error (tl (remaining lx)).
Proof.
  unfold peek_char, remaining. rewrite nth_error_skipn_hd.
  replace (pos lx + 1) with (S (pos lx)) by lia. now rewrite skipn_S_tl.
Qed.

Lemma dict_get_keywords s :
  literal_kind (dict_get keywords s IDENTIFIER) = true /\
  dict_get keywords s IDENTIFIER <> STRING.
Proof.
  unfold keywords. cbn [dict_get].
  repeat match goal with |- context [if ?b then _ else _] => destruct b end;
    split; (reflexivity || discriminate).
Qed.

Lemma lookup_single_char c ty :
  lookup_char single_char_tokens c = Some ty ->
  literal_kind ty = true /\ ty <> STRING.
Proof.
  unfold single_char_tokens. cbn [lookup_char].
  repeat match goal with |- context [if ?b then _ else _] => destruct b end;
    intros H; try discriminate; injection H as <-;
    split; (reflexivity || discriminate).
Qed.

Lemma literal_not_EOF ty : literal_kind ty = true -> ty <> EOF.
Proof. intros H ->. discriminate. Qed.

Lemma two_char_at_true lx c r a :
  remaining lx = c :: r ->
  two_char_at lx c a = true ->
  c = a /\ exists r', r = ch "=" :: r'.
Proof.
  intros Hrem. unfold two_char_at. rewrite peek_char_1, Hrem. simpl.
  rewrite andb_true_iff. intros [Ha Hb]. apply N.eqb_eq in Ha. split; [exact Ha|].
  destruct r as [|d r']; simpl in Hb; [discriminate|].
  apply N.eqb_eq in Hb. subst d. now exists r'.
Qed.

Lemma advance_twice lx a b r :
  remaining lx = a :: b :: r ->
  remaining (advance (advance lx)) = r /\
  text (advance (advance lx)) = text lx /\
  cursor (advance (advance lx)) = pos_after (cursor lx) [a; b].
Proof.
  intros H. destruct (advance_cons _ _ _ H) as (_ & Hr & Ht & Hp).
  destruct (advance_cons _ _ _ Hr) as (_ & Hr1 & Ht1 & Hp1).
  repeat split; auto; [congruence|]. rewrite Hp1, Hp. reflexivity.
Qed.

Section StepFacts.
Variable ucd : UnicodeData.

Lemma step_two_char lx a r ty s :
  remaining lx = a :: ch "=" :: r ->
  literal_kind ty = true -> ty <> STRING ->
  py s = [a; ch "="] ->
  (32 < a)%N ->
  step_post lx (advance (advance lx))
    [mkToken ty (py s) (cur_line lx) (cur_column lx)] [a; ch "="].
Proof.
  intros Hrem Hl Hs Hpy Ha.
  assert (He : (32 < ch "=")%N) by (vm_compute; reflexivity).
  destruct (advance_twice _ _ _ _ Hrem) as (R & T & P).
  unfold step_post. rewrite R. repeat split; auto; [discriminate|].
  right. eexists. repeat split; auto.
  - apply spells_literal; simpl; auto.
    apply above_blank in Ha, He. repeat constructor; assumption.
  - now apply literal_not_EOF.
  - simpl. intros H. now elim Hs.
Qed.

Lemma tokenize_step_spec lx c r lx' new :
  remaining lx = c :: r ->
  tokenize_step ucd lx c = Return (lx', new) ->
  exists span, step_post lx lx' new span.
Proof.
  intros Hrem Hrun. unfold tokenize_step in Hrun.
  destruct (char_in c [SPACE; TAB]) eqn:Ews.
  { (* blanks *)
    injection Hrun as <- <-. unfold skip_whitespace.
    destruct (scan_while_spec (fun c => char_in c [SPACE; TAB]) (budget lx) lx [])
      as (H1 & H2 & H3 & H4); [rewrite budget_length; lia|].
    exists (take_while is_hspace (remaining lx)). unfold step_post.
    fold is_hspace in H2, H3, H4 |- *. rewrite H2, take_drop_while.
    repeat split; auto.
    - rewrite Hrem. simpl. unfold is_hspace at 1. rewrite Ews. discriminate.
    - left. split; [reflexivity|]. apply take_while_Forall. }
  destruct (N.eqb_spec c LF) as [->|Hlf].
  { (* line feed *)
    injection Hrun as <- <-.
    destruct (advance_cons _ _ _ Hrem) as (_ & Hr & Ht & Hp).
    exists [LF]. unfold step_post. rewrite Hr. repeat split; auto; [discriminate|].
    right. eexists. repeat split; auto; discriminate. }
  destruct (isdigit ucd c) eqn:Ed.
  { (* number *)
    destruct (read_number_spec ucd lx) as (S1 & S2 & S3 & S4).
    destruct (read_number ucd lx) as [lx1 t]. simpl in S1, S2, S3, S4.
    injection Hrun as <- <-.
    exists (fst (number_span ucd (remaining lx))). unfold step_post.
    rewrite S2, number_span_app. repeat split; auto.
    - rewrite Hrem. unfold number_span. simpl. rewrite Ed.
      destruct (drop_while (isdigit ucd) r) as [|d r']; [discriminate|].
      destruct (N.eqb d DOT); discriminate.
    - right. exists t. subst t. repeat split; auto; [|discriminate|discriminate].
      apply number_span_solid. }
  destruct (char_in c [DQUOTE; SQUOTE]) eqn:Eq.
  { (* string *)
    destruct (read_string lx) as [[lx1 t]|e] eqn:E; [|discriminate].
    cbn [bind] in Hrun. injection Hrun as <- <-.
    destruct (read_string_inv _ _ _ _ _ Hrem E) as (raw & R & C & D & T & P).
    exists (c :: raw ++ [c]). unfold step_post.
    repeat split; auto; [discriminate | |].
    - rewrite R. simpl. now rewrite <- app_assoc.
    - right. exists t. subst t. repeat split; auto; [|discriminate|].
      + unfold spells. simpl. exists c, raw. repeat split; auto.
        unfold char_in in Eq. simpl in Eq. rewrite !orb_true_iff in Eq.
        destruct Eq as [Eq|[Eq|Eq]]; [| |discriminate];
          apply N.eqb_eq in Eq; auto.
      + simpl. intros H; now elim H. }
  destruct (isalpha ucd c || N.eqb c UNDERSCORE) eqn:Ea.
  { (* identifier or keyword *)
    destruct (read_identifier_spec ucd lx) as (S1 & S2 & S3 & S4).
    destruct (read_identifier ucd lx) as [lx1 t]. simpl in S1, S2, S3, S4.
    injection Hrun as <- <-.
    exists (take_while (ident_char ucd) (remaining lx)). unfold step_post.
    rewrite S2, take_drop_while. repeat split; auto.
    - rewrite Hrem. simpl.
      assert (Hi : ident_char ucd c = true).
      { unfold ident_char. rewrite orb_true_iff in *.
        destruct Ea as [Ea|Ea]; [left; now apply isalpha_isalnum | now right]. }
      rewrite Hi. discriminate.
    - right. exists t. subst t. repeat split; auto.
      + apply spells_literal; simpl; auto; [apply dict_get_keywords|].
        eapply Forall_impl; [|apply take_while_Forall].
        apply ident_char_solid.
      + simpl. apply literal_not_EOF, dict_get_keywords.
      + simpl. intros H. now apply dict_get_keywords in H. }
  destruct (two_char_at lx c (ch "=")) eqn:E1.
  { destruct (two_char_at_true _ _ _ _ Hrem E1) as (-> & r' & ->).
    injection Hrun as <- <-. eexists.
    eapply step_two_char with (r := r');
      [exact Hrem | reflexivity | discriminate | reflexivity
      | vm_compute; reflexivity]. }
  destruct (two_char_at lx c (ch "!")) eqn:E2.
  { destruct (two_char_at_true _ _ _ _ Hrem E2) as (-> & r' & ->).
    injection Hrun as <- <-. eexists.
    eapply step_two_char with (r := r');
      [exact Hrem | reflexivity | discriminate | reflexivity
      | vm_compute; reflexivity]. }
  destruct (two_char_at lx c (ch "<")) eqn:E3.
  { destruct (two_char_at_true _ _ _ _ Hrem E3) as (-> & r' & ->).
    injection Hrun as <- <-. eexists.
    eapply step_two_char with (r := r');
      [exact Hrem | reflexivity | discriminate | reflexivity
      | vm_compute; reflexivity]. }
  destruct (two_char_at lx c (ch ">")) eqn:E4.
  { destruct (two_char_at_true _ _ _ _ Hrem E4) as (-> & r' & ->).
    injection Hrun as <- <-. eexists.
    eapply step_two_char with (r := r');
      [exact Hrem | reflexivity | discriminate | reflexivity
      | vm_compute; reflexivity]. }
  destruct (lookup_char single_char_tokens c) as [ty|] eqn:El; [|discriminate].
  injection Hrun as <- <-.
  destruct (lookup_single_char _ _ El) as (L1 & L2).
  destruct (advance_cons _ _ _ Hrem) as (_ & Hr & Ht & Hp).
  exists [c]. unfold step_post. rewrite Hr. repeat split; auto; [discriminate|].
  right. eexists. repeat split; auto.
  - apply spells_literal; simpl; auto.
    constructor; [|constructor]. unfold is_blank, is_hspace. rewrite Ews.
    simpl. now apply N.eqb_neq.
  - now apply literal_not_EOF.
  - simpl. intros H. now elim L2.
Qed.
End StepFacts.

(** ** The whole run *)

Lemma rec_blanks span toks s :
  Forall (fun c => is_hspace c = true) span ->
  reconstructs toks s -> reconstructs toks (span ++ s).
Proof.
  induction 1 as [|c span Hc _ IH]; intros H; simpl; auto.
  apply rec_blank; auto.
Qed.

Lemma strip_blanks_solid s :
  Forall (fun c => is_blank c = false) s -> strip_blanks s = s.
Proof.
  induction 1 as [|c s Hc _ IH]; [reflexivity|].
  unfold is_blank in Hc. apply orb_false_iff in Hc. destruct Hc as [Hc _].
  unfold strip_blanks in *. cbn [filter]. rewrite Hc. cbn [negb]. now rewrite IH.
Qed.

Lemma spells_source t span :
  spells t span -> type t <> STRING -> source t = span /\ strip_blanks span = span.
Proof.
  unfold spells, source. intros H Hs.
  destruct (type t);
    first [ now elim Hs
          | contradiction
          | subst span; split; reflexivity
          | destruct H as [E H]; subst span; split;
            [reflexivity | now apply strip_blanks_solid] ].
Qed.

Lemma reconstructs_strip toks s :
  reconstructs toks s ->
  Forall (fun t => type t <> STRING) toks ->
  concat (map source toks) = strip_blanks s.
Proof.
  induction 1 as [|c toks s Hc _ IH|t span toks s Hsp _ IH]; intros Hall.
  - reflexivity.
  - simpl. rewrite Hc. simpl. now apply IH.
  - inversion Hall as [|? ? Ht Hts]; subst.
    destruct (spells_source _ _ Hsp Ht) as [E1 E2].
    cbn [map concat]. rewrite E1, (IH Hts). unfold strip_blanks in *.
    now rewrite filter_app, E2.
Qed.

Lemma current_char_some lx c :
  current_char lx = Some c -> exists r, remaining lx = c :: r.
Proof.
  rewrite current_char_hd. destruct (remaining lx) as [|d r]; simpl; [discriminate|].
  intros H; injection H as ->. now exists r.
Qed.

Lemma current_char_none lx : current_char lx = None -> remaining lx = [].
Proof.
  rewrite current_char_hd. destruct (remaining lx); simpl; [auto|discriminate].
Qed.

Section RunFacts.
Variable ucd : UnicodeData.

Lemma step_post_shorter lx lx' new span :
  step_post lx lx' new span -> length (remaining lx') < length (remaining lx).
Proof.
  intros (Hne & Hr & _). rewrite Hr, length_app.
  destruct span; [congruence | simpl; lia].
Qed.

(** The loop of [tokenize] stops before its fuel is spent: every turn
    passes at least one character. *)
Lemma tokenize_loop_total fuel : forall lx tokens,
  length (remaining lx) < fuel ->
  exists r, tokenize_loop ucd fuel lx tokens = Some r.
Proof.
  induction fuel as [|fuel IH]; intros lx tokens Hlen; [lia|].
  cbn [tokenize_loop]. destruct (current_char lx) as [c|] eqn:Ec; [|eauto].
  destruct (current_char_some _ _ Ec) as [r Hr].
  destruct (tokenize_step ucd lx c) as [[lx' new]|e] eqn:Es; [|eauto].
  destruct (tokenize_step_spec ucd _ _ _ _ _ Hr Es) as [span Hp].
  apply IH. apply step_post_shorter in Hp. lia.
Qed.

Lemma tokenize_total lx : exists r, tokenize ucd lx = Some r.
Proof. apply tokenize_loop_total. rewrite budget_length. lia. Qed.

(** A run that returns has added, to the tokens it started with, the
    tokens of the remaining text and then one end-of-file token, placed
    where the text ends. *)
Lemma tokenize_loop_run fuel : forall lx tokens toks,
  tokenize_loop ucd fuel lx tokens = Some (Return toks) ->
  exists mid l k,
    toks = tokens ++ mid ++ [mkToken EOF [] l k] /\
    (l, k) = pos_after (cursor lx) (remaining lx) /\
    Forall (fun t => type t <> EOF) mid /\
    reconstructs (mid ++ [mkToken EOF [] l k]) (remaining lx).
Proof.
  induction fuel as [|fuel IH]; intros lx tokens toks Hrun; [discriminate|].
  cbn [tokenize_loop] in Hrun. destruct (current_char lx) as [c|] eqn:Ec.
  - destruct (current_char_some _ _ Ec) as [r Hr].
    destruct (tokenize_step ucd lx c) as [[lx' new]|e] eqn:Es; [|discriminate].
    destruct (tokenize_step_spec ucd _ _ _ _ _ Hr Es) as (span & _ & R & _ & P & Hnew).
    destruct (IH _ _ _ Hrun) as (mid & l & k & E & Epos & Hmid & Hrec).
    rewrite R, pos_after_app, <- P.
    destruct Hnew as [[-> Hb]|(t & -> & Hsp & Ht & _)].
    + exists mid, l, k. rewrite app_nil_r in E. repeat split; auto.
      now apply rec_blanks.
    + exists (t :: mid), l, k. rewrite <- app_assoc in E. repeat split; auto.
      simpl. now apply rec_token.
  - injection Hrun as <-. exists [], (cur_line lx), (cur_column lx).
    rewrite (current_char_none _ Ec). repeat split; auto.
    apply (rec_token _ [] [] []); [reflexivity | constructor].
Qed.
Lemma placed_blanks span : forall lc toks s,
  Forall (fun c => is_hspace c = true) span ->
  placed (pos_after lc span) toks s -> placed lc toks (span ++ s).
Proof.
  induction span as [|c span IH]; intros lc toks s Hall H; [exact H|].
  inversion Hall as [|? ? Hc Hs]; subst. simpl.
  apply placed_blank; [exact Hc|]. apply IH; assumption.
Qed.

(** The positions the tokens of a run report. *)
Lemma tokenize_loop_placed fuel : forall lx tokens toks,
  tokenize_loop ucd fuel lx tokens = Some (Return toks) ->
  exists new, toks = tokens ++ new /\ placed (cursor lx) new (remaining lx).
Proof.
  induction fuel as [|fuel IH]; intros lx tokens toks Hrun; [discriminate|].
  cbn [tokenize_loop] in Hrun. destruct (current_char lx) as [c|] eqn:Ec.
  - destruct (current_char_some _ _ Ec) as [r Hr].
    destruct (tokenize_step ucd lx c) as [[lx' new]|e] eqn:Es; [|discriminate].
    destruct (tokenize_step_spec ucd _ _ _ _ _ Hr Es) as (span & _ & R & _ & P & Hnew).
    destruct (IH _ _ _ Hrun) as (rest & E & Hpl).
    rewrite R. rewrite P in Hpl.
    destruct Hnew as [[-> Hb]|(t & -> & Hsp & _ & Hcol & Hl1 & Hl2)].
    + exists rest. rewrite app_nil_r in E. split; [exact E|].
      now apply placed_blanks.
    + exists (t :: rest). rewrite <- app_assoc in E. split; [exact E|].
      apply placed_token; auto.
      assert (Hend : cur_line lx' = fst (pos_after (cursor lx) span))
        by (rewrite <- P; reflexivity).
      destruct (type t) eqn:Et;
        try (apply Hl1; discriminate).
      rewrite <- Hend. now apply Hl2.
  - injection Hrun as <-. exists [mkToken EOF [] (cur_line lx) (cur_column lx)].
    rewrite (current_char_none _ Ec). split; [reflexivity|].
    apply (placed_token (cursor lx) _ [] [] []);
      [reflexivity | reflexivity | reflexivity | constructor].
Qed.

Lemma tokenize_positions (s : str) (toks : list Token) :
  lex ucd s = Some (Return toks) -> placed (1, 1) toks s.
Proof.
  intros Hrun. apply tokenize_loop_placed in Hrun.
  destruct Hrun as (new & E & H). simpl in E. now subst new.
Qed.
End RunFacts.

(** * The properties of the specification *)

(** ** End of input *)

(** C1. When [tokenize] returns, the last token is the end-of-file token
    and no token before it is one; on the empty text the result is the
    end-of-file token alone. *)
Theorem tokenize_ends_with_single_EOF ucd (s : str) (toks : list Token) :
  lex ucd s = Some (Return toks) ->
  (exists front l k,
      toks = front ++ [mkToken EOF [] l k] /\
      Forall (fun t => type t <> EOF) front) /\
  lex ucd [] = Some (Return [mkToken EOF [] 1 1]).
Proof.
  intros Hrun. split; [|reflexivity].
  apply tokenize_loop_run in Hrun.
  destruct Hrun as (mid & l & k & E & _ & Hmid & _).
  exists mid, l, k. auto.
Qed.

Lemma tokenize_ends_with_single_EOF_witness :
  let toks := [mkToken IDENTIFIER (py "x") 1 1; mkToken ASSIGN (py "=") 1 3;
               mkToken NUMBER (py "1") 1 5; mkToken EOF [] 1 6] in
  lex ascii_only (py "x = 1") = Some (Return toks) /\
  ((exists front l k,
      toks = front ++ [mkToken EOF [] l k] /\
      Forall (fun t => type t <> EOF) front) /\
   lex ascii_only [] = Some (Return [mkToken EOF [] 1 1])).
Proof.
  split; [reflexivity|].
  apply (tokenize_ends_with_single_EOF ascii_only (py "x = 1")).
  reflexivity.
Defined.

(** ** Operators *)

(** C2. When the current character is one of [=], [!], [<], [>] and the
    next one is [=], the turn of the loop adds the one two-character
    token and advances twice; the texts [>=] and [<=] give one token
    each before the end-of-file token. *)
Theorem two_char_operators_first ucd lx c :
  current_char lx = Some c ->
  peek_char lx 1 = Some (ch "=") ->
  In c [ch "="; ch "!"; ch "<"; ch ">"] ->
  tokenize_step ucd lx c
    = Return (advance (advance lx),
              [mkToken (two_char_kind c) [c; ch "="] (cur_line lx) (cur_column lx)]) /\
  lex ucd (py ">=")
    = Some (Return [mkToken GREATER_EQUAL (py ">=") 1 1; mkToken EOF [] 1 3]) /\
  lex ucd (py "<=")
    = Some (Return [mkToken LESS_EQUAL (py "<=") 1 1; mkToken EOF [] 1 3]).
Proof.
  intros Hc Hp Hin. split; [|split; reflexivity].
  unfold tokenize_step, two_char_at. rewrite Hp.
  simpl in Hin. destruct Hin as [<-|[<-|[<-|[<-|[]]]]]; reflexivity.
Qed.

Lemma two_char_operators_first_witness :
  let lx := mkLexer (py "a >= 1") 2 1 3 in
  current_char lx = Some (ch ">") /\
  peek_char lx 1 = Some (ch "=") /\
  tokenize_step ascii_only lx (ch ">")
    = Return (advance (advance lx), [mkToken GREATER_EQUAL (py ">=") 1 3]).
Proof.
  split; [reflexivity|]. split; [reflexivity|].
  apply (two_char_operators_first ascii_only
           (mkLexer (py "a >= 1") 2 1 3) (ch ">")).
  - reflexivity.
  - reflexivity.
  - simpl. auto.
Defined.

(** ** Numbers *)

Lemma take_while_digits_no_dot ucd s :
  count_occ N.eq_dec (take_while (isdigit ucd) s) DOT = 0.
Proof.
  apply count_occ_not_In. intros Hin.
  pose proof (take_while_Forall (isdigit ucd) s) as H.
  rewrite Forall_forall in H. apply H, isdigit_not_DOT in Hin. discriminate.
Qed.

Lemma number_span_one_dot ucd s :
  count_occ N.eq_dec (fst (number_span ucd s)) DOT <= 1.
Proof.
  unfold number_span.
  destruct (drop_while (isdigit ucd) s) as [|c r]; simpl.
  - rewrite take_while_digits_no_dot. lia.
  - destruct (N.eqb c DOT); simpl.
    + rewrite count_occ_app, count_occ_cons_eq by reflexivity.
      rewrite !take_while_digits_no_dot. lia.
    + rewrite take_while_digits_no_dot. lia.
Qed.

Lemma number_span_maximal ucd s :
  match snd (number_span ucd s) with
  | c :: _ => isdigit ucd c = false
  | [] => True
  end.
Proof.
  unfold number_span.
  destruct (drop_while (isdigit ucd) s) as [|c r] eqn:E; simpl; auto.
  destruct (N.eqb c DOT); simpl.
  - destruct (drop_while (isdigit ucd) r) as [|d r'] eqn:E'; auto.
    now apply drop_while_head in E'.
  - now apply drop_while_head in E.
Qed.

(** C6. The number reader returns a NUMBER token whose text is the
    characters it has passed: the longest run of digits and, when a dot
    comes next, that dot and the longest run of digits after it
    ([number_span]).  It stops in front of a character that is not a
    digit, and its text holds one dot at most.  The texts [3.14], [42]
    and [3.] give one number token each, and in [1.2.3] the second dot
    is left to the next turn, which rejects it. *)
Theorem read_number_maximal_munch ucd lx :
  let tok := snd (read_number ucd lx) in
  let rest := remaining (fst (read_number ucd lx)) in
  type tok = NUMBER /\
  (value tok, rest) = number_span ucd (remaining lx) /\
  value tok ++ rest = remaining lx /\
  match rest with c :: _ => isdigit ucd c = false | [] => True end /\
  count_occ N.eq_dec (value tok) DOT <= 1 /\
  lex ucd (py "3.14")
    = Some (Return [mkToken NUMBER (py "3.14") 1 1; mkToken EOF [] 1 5]) /\
  lex ucd (py "42")
    = Some (Return [mkToken NUMBER (py "42") 1 1; mkToken EOF [] 1 3]) /\
  lex ucd (py "3.")
    = Some (Return [mkToken NUMBER (py "3.") 1 1; mkToken EOF [] 1 3]) /\
  fst (number_span ucd (py "1.2.3")) = py "1.2" /\
  lex ucd (py "1.2.3") = Some (Raise (UnexpectedCharacter DOT 1 4)).
Proof.
  destruct (read_number_spec ucd lx) as (S1 & S2 & _).
  cbv zeta. rewrite S1, S2. cbn [type value].
  repeat split; try reflexivity.
  - now destruct (number_span ucd (remaining lx)).
  - apply number_span_app.
  - apply number_span_maximal.
  - apply number_span_one_dot.
Qed.

(** ** Strings *)

(** C7. On a quoted closed body the string reader returns one STRING
    token whose text is the decoded body, where a backslash and the
    character after it stand for a line feed ([n]), a tab ([t]) or that
    character itself (backslash, quote or any other), and stops after
    the closing quote.  The six characters quote, [a], backslash, [n],
    [b], quote give the text [a], line feed, [b]. *)
Theorem read_string_decodes ucd lx q raw rest :
  remaining lx = q :: raw ++ q :: rest ->
  closed_body q raw = true ->
  (exists lx',
      read_string lx
        = Return (lx', mkToken STRING (decode q raw) (cur_line lx') (cur_column lx)) /\
      remaining lx' = rest) /\
  (forall e r, decode q (BACKSLASH :: e :: r) = unescape q e :: decode q r) /\
  (forall c r, c <> BACKSLASH -> decode q (c :: r) = c :: decode q r) /\
  unescape q (ch "n") = LF /\
  unescape q (ch "t") = TAB /\
  (forall e, e <> ch "n" -> e <> ch "t" -> unescape q e = e) /\
  lex ucd [DQUOTE; ch "a"; BACKSLASH; ch "n"; ch "b"; DQUOTE]
    = Some (Return [mkToken STRING [ch "a"; LF; ch "b"] 1 1; mkToken EOF [] 1 7]).
Proof.
  intros Hrem Hcl. repeat split; try reflexivity.
  - destruct (read_string_closed lx q raw rest Hrem Hcl) as (lx' & E & R & _).
    exists lx'. auto.
  - intros c r Hc. cbn [decode]. apply N.eqb_neq in Hc. now rewrite Hc.
  - intros e Hn Ht. unfold unescape.
    apply N.eqb_neq in Hn, Ht. rewrite Hn, Ht.
    destruct (N.eqb_spec e BACKSLASH) as [->|_]; [reflexivity|].
    destruct (N.eqb_spec e q) as [->|_]; reflexivity.
Qed.

Lemma read_string_decodes_witness :
  let lx := Lexer_init [SQUOTE; ch "a"; BACKSLASH; ch "t"; SQUOTE; ch "+"] in
  remaining lx = SQUOTE :: [ch "a"; BACKSLASH; ch "t"] ++ SQUOTE :: [ch "+"] /\
  closed_body SQUOTE [ch "a"; BACKSLASH; ch "t"] = true /\
  exists lx',
    read_string lx
      = Return (lx', mkToken STRING (decode SQUOTE [ch "a"; BACKSLASH; ch "t"])
                             (cur_line lx') (cur_column lx)) /\
    remaining lx' = [ch "+"].
Proof.
  split; [reflexivity|]. split; [reflexivity|].
  apply (read_string_decodes ascii_only
           (Lexer_init [SQUOTE; ch "a"; BACKSLASH; ch "t"; SQUOTE; ch "+"])
           SQUOTE [ch "a"; BACKSLASH; ch "t"] [ch "+"]); reflexivity.
Defined.

(** ** Identifiers and keywords *)

Lemma str_eqb_eq a : forall b, str_eqb a b = true <-> a = b.
Proof.
  induction a as [|x a IH]; intros [|y b]; simpl; split; intros H;
    try discriminate; try reflexivity.
  - apply andb_true_iff in H. destruct H as [H1 H2].
    apply N.eqb_eq in H1. apply IH in H2. congruence.
  - injection H as -> ->. rewrite N.eqb_refl. now apply IH.
Qed.

Lemma dict_get_keywords_spec s :
  (s = py "if" -> dict_get keywords s IDENTIFIER = IF) /\
  (s = py "while" -> dict_get keywords s IDENTIFIER = WHILE) /\
  (s = py "for" -> dict_get keywords s IDENTIFIER = FOR) /\
  (s = py "print" -> dict_get keywords s IDENTIFIER = PRINT) /\
  (~ In s [py "if"; py "while"; py "for"; py "print"] ->
   dict_get keywords s IDENTIFIER = IDENTIFIER).
Proof.
  repeat split; try (intros ->; reflexivity).
  intros Hn. unfold keywords. cbn [dict_get].
  repeat match goal with
  | |- context [if str_eqb ?k s then _ else _] =>
      destruct (str_eqb k s) eqn:E;
      [apply str_eqb_eq in E; exfalso; apply Hn; rewrite <- E; simpl; tauto
      |clear E]
  end.
  reflexivity.
Qed.

(** C8, as amended. The identifier reader returns one token whose text
    is the longest run of alphanumeric characters, in the sense of
    [str.isalnum], and underscores at the cursor, and stops in front of
    what follows; on ASCII these are the letters, the digits and the
    underscore.  The kind of the token
    is the keyword kind when the whole text is exactly [if], [while],
    [for] or [print], and IDENTIFIER otherwise.  The text [ifx] gives
    one identifier, and [If] is no keyword. *)
Theorem read_identifier_classifies ucd lx :
  let tok := snd (read_identifier ucd lx) in
  let rest := remaining (fst (read_identifier ucd lx)) in
  value tok = take_while (ident_char ucd) (remaining lx) /\
  rest = drop_while (ident_char ucd) (remaining lx) /\
  value tok ++ rest = remaining lx /\
  match rest with c :: _ => ident_char ucd c = false | [] => True end /\
  (value tok = py "if" -> type tok = IF) /\
  (value tok = py "while" -> type tok = WHILE) /\
  (value tok = py "for" -> type tok = FOR) /\
  (value tok = py "print" -> type tok = PRINT) /\
  (~ In (value tok) [py "if"; py "while"; py "for"; py "print"] ->
   type tok = IDENTIFIER) /\
  (forall c, is_ascii c = true ->
     ident_char ucd c = isalpha ucd c || isdigit ucd c || N.eqb c UNDERSCORE) /\
  lex ucd (py "ifx")
    = Some (Return [mkToken IDENTIFIER (py "ifx") 1 1; mkToken EOF [] 1 4]) /\
  lex ucd (py "if x")
    = Some (Return [mkToken IF (py "if") 1 1; mkToken IDENTIFIER (py "x") 1 4;
                    mkToken EOF [] 1 5]) /\
  lex ucd (py "If")
    = Some (Return [mkToken IDENTIFIER (py "If") 1 1; mkToken EOF [] 1 3]).
Proof.
  destruct (read_identifier_spec ucd lx) as (S1 & S2 & _).
  cbv zeta. rewrite S1, S2. cbn [type value].
  pose proof (dict_get_keywords_spec (take_while (ident_char ucd) (remaining lx)))
    as (K1 & K2 & K3 & K4 & K5).
  repeat split; try reflexivity; try assumption.
  - apply take_drop_while.
  - destruct (drop_while (ident_char ucd) (remaining lx)) as [|c r] eqn:E; auto.
    now apply drop_while_head in E.
  - intros c Hc. unfold ident_char. now rewrite isalnum_ascii.
Qed.

(** C8, as first stated, fails: the run that the reader takes is not
    the longest run of letters, digits and underscores.  The fraction
    one half, U+00BD, is no letter for [str.isalpha] and no digit for
    [str.isdigit], but it is alphanumeric for [str.isalnum]: after [a]
    the reader takes it into the identifier. *)
Lemma read_identifier_takes_numeric_character :
  let half := 189%N in
  let lx := Lexer_init [ch "a"; half] in
  isalpha numeric_half half = false /\
  isdigit numeric_half half = false /\
  letter_digit_underscore numeric_half half = false /\
  take_while (letter_digit_underscore numeric_half) (remaining lx) = [ch "a"] /\
  value (snd (read_identifier numeric_half lx)) = [ch "a"; half] /\
  str_eqb (value (snd (read_identifier numeric_half lx)))
          (take_while (letter_digit_underscore numeric_half) (remaining lx))
    = false /\
  lex numeric_half [ch "a"; half]
    = Some (Return [mkToken IDENTIFIER [ch "a"; half] 1 1; mkToken EOF [] 1 3]).
Proof. repeat split. Qed.

(** ** Round trip *)

(** C9. When [tokenize] returns, the text is exactly the sources of its
    tokens, in order, with blanks put back between them, where the
    source of a string token is a quoted closed body that decodes to its
    text, the source of a newline token is a line feed and the source of
    any other token is its text ([reconstructs]).  When no string token
    is among them, the sources of the tokens joined together are the
    text without its spaces and tabs. *)
Theorem tokenize_round_trip ucd (s : str) (toks : list Token) :
  lex ucd s = Some (Return toks) ->
  reconstructs toks s /\
  (Forall (fun t => type t <> STRING) toks ->
   concat (map source toks) = strip_blanks s).
Proof.
  intros Hrun. apply tokenize_loop_run in Hrun.
  destruct Hrun as (mid & l & k & E & _ & _ & Hrec).
  simpl in E. subst toks. rewrite remaining_init in Hrec.
  split; [exact Hrec|]. now apply reconstructs_strip.
Qed.

Lemma tokenize_round_trip_witness :
  let s := [ch "x"; SPACE; TAB; ch "="; LF; SPACE; ch "4"; ch "2"] in
  let toks := [mkToken IDENTIFIER (py "x") 1 1; mkToken ASSIGN (py "=") 1 4;
               mkToken NEWLINE [BACKSLASH; ch "n"] 1 5;
               mkToken NUMBER (py "42") 2 2; mkToken EOF [] 2 4] in
  lex ascii_only s = Some (Return toks) /\
  reconstructs toks s /\
  (Forall (fun t => type t <> STRING) toks ->
   concat (map source toks) = strip_blanks s).
Proof.
  split; [reflexivity|].
  apply (tokenize_round_trip ascii_only
           [ch "x"; SPACE; TAB; ch "="; LF; SPACE; ch "4"; ch "2"]).
  reflexivity.
Defined.

(** ** Strings over several lines *)

Lemma body_app q : forall n a b,
  length a <= n ->
  closed_body q a = true ->
  closed_body q (a ++ b) = closed_body q b /\
  decode q (a ++ b) = decode q a ++ decode q b.
Proof.
  induction n as [|n IH]; intros a b Hlen Hcl.
  - destruct a; [auto | simpl in Hlen; lia].
  - destruct a as [|c a]; [auto|].
    cbn [closed_body decode app] in *.
    destruct (N.eqb c q); [discriminate|].
    destruct (N.eqb c BACKSLASH).
    + destruct a as [|e a]; [discriminate|]. cbn [app].
      destruct (IH a b) as [H1 H2]; [simpl in Hlen; lia | assumption|].
      now rewrite H1, H2.
    + destruct (IH a b) as [H1 H2]; [simpl in Hlen; lia | assumption|].
      now rewrite H1, H2.
Qed.

Lemma quote_cases q :
  q = DQUOTE \/ q = SQUOTE ->
  N.eqb LF q = false /\ char_in q [SPACE; TAB] = false /\ N.eqb q LF = false /\
  char_in q [DQUOTE; SQUOTE] = true /\ forall ucd, isdigit ucd q = false.
Proof. intros [->| ->]; repeat split. Qed.

(** C10. A line feed that stands in the body of a string literal, not
    after a backslash, is taken into the text of the string token as it
    is: the reader raises nothing, and the turn of the loop adds the one
    STRING token and no NEWLINE token. *)
Theorem string_spans_lines ucd lx q a b rest :
  q = DQUOTE \/ q = SQUOTE ->
  remaining lx = q :: a ++ LF :: b ++ q :: rest ->
  closed_body q a = true ->
  closed_body q b = true ->
  (exists lx',
      let tok := mkToken STRING (decode q a ++ LF :: decode q b)
                         (cur_line lx') (cur_column lx) in
      read_string lx = Return (lx', tok) /\
      tokenize_step ucd lx q = Return (lx', [tok]) /\
      remaining lx' = rest) /\
  lex ucd [DQUOTE; ch "a"; LF; ch "b"; DQUOTE; ch "c"]
    = Some (Return [mkToken STRING [ch "a"; LF; ch "b"] 2 1;
                    mkToken IDENTIFIER [ch "c"] 2 3; mkToken EOF [] 2 4]).
Proof.
  intros Hq Hrem Ha Hb. split; [|reflexivity].
  destruct (quote_cases q Hq) as (Q1 & Q2 & Q3 & Q4 & Q5).
  assert (Hcl : closed_body q (a ++ LF :: b) = true).
  { destruct (body_app q (length a) a (LF :: b)) as [-> _]; auto.
    cbn [closed_body]. rewrite Q1. exact Hb. }
  assert (Hdec : decode q (a ++ LF :: b) = decode q a ++ LF :: decode q b).
  { destruct (body_app q (length a) a (LF :: b)) as [_ ->]; auto. }
  assert (Hrem' : remaining lx = q :: (a ++ LF :: b) ++ q :: rest).
  { rewrite Hrem, <- app_assoc. reflexivity. }
  destruct (read_string_closed lx q _ rest Hrem' Hcl) as (lx' & E & R & _).
  rewrite Hdec in E. exists lx'. cbv zeta. repeat split; auto.
  unfold tokenize_step. rewrite Q2, Q3, Q4, Q5, E. reflexivity.
Qed.

Lemma string_spans_lines_witness :
  let lx := Lexer_init [SQUOTE; ch "a"; LF; LF; ch "b"; SQUOTE; ch "c"] in
  remaining lx = SQUOTE :: [ch "a"] ++ LF :: [LF; ch "b"] ++ SQUOTE :: [ch "c"] /\
  closed_body SQUOTE [ch "a"] = true /\
  closed_body SQUOTE [LF; ch "b"] = true /\
  exists lx',
    let tok := mkToken STRING (decode SQUOTE [ch "a"] ++ LF :: decode SQUOTE [LF; ch "b"])
                       (cur_line lx') (cur_column lx) in
    read_string lx = Return (lx', tok) /\
    tokenize_step ascii_only lx SQUOTE = Return (lx', [tok]) /\
    remaining lx' = [ch "c"].
Proof.
  split; [reflexivity|]. split; [reflexivity|]. split; [reflexivity|].
  apply (string_spans_lines ascii_only
           (Lexer_init [SQUOTE; ch "a"; LF; LF; ch "b"; SQUOTE; ch "c"])
           SQUOTE [ch "a"] [LF; ch "b"] [ch "c"]);
    [right; reflexivity | reflexivity | reflexivity | reflexivity].
Defined.

(** ** Where the code departs from the specification *)

(** C3. A string token takes its column from the opening quote and its
    line from the cursor after the closing quote: the literal that opens
    at line 1, column 1 and closes on the second line is reported at
    line 2, column 1.  A token that stays on its line, as [y] in the
    text [x], line feed, [y], is reported where it starts. *)
Theorem string_token_line_is_closing_line ucd :
  lex ucd [DQUOTE; ch "a"; LF; ch "b"; DQUOTE]
    = Some (Return [mkToken STRING [ch "a"; LF; ch "b"] 2 1; mkToken EOF [] 2 3]) /\
  lex ucd [ch "x"; LF; ch "y"]
    = Some (Return [mkToken IDENTIFIER [ch "x"] 1 1;
                    mkToken NEWLINE [BACKSLASH; ch "n"] 1 2;
                    mkToken IDENTIFIER [ch "y"] 2 1; mkToken EOF [] 2 2]).
Proof. split; reflexivity. Qed.

(** C4. A backslash that ends the text inside a string literal makes
    the reader add [None] to a string: the run ends with a [TypeError],
    which is neither of the two failures of the lexer. *)
Theorem trailing_backslash_raises_TypeError ucd :
  lex ucd [DQUOTE; BACKSLASH] = Some (Raise TypeError) /\
  lex ucd [DQUOTE; ch "a"; ch "b"; ch "c"; BACKSLASH] = Some (Raise TypeError).
Proof. split; reflexivity. Qed.

(** C5. The failure for a string that is not closed carries the column
    of the opening quote and the line of the end of the text: the
    literal that opens at line 1, column 1 and is cut on the second line
    is reported at line 2, column 1.  On one line, the report is the
    position of the opening quote. *)
Theorem unterminated_string_line_is_last_line ucd :
  lex ucd [DQUOTE; ch "a"; LF]
    = Some (Raise (UnterminatedString 2 1)) /\
  lex ucd [ch "x"; SPACE; DQUOTE; ch "a"; ch "b"; ch "c"]
    = Some (Raise (UnterminatedString 1 3)).
Proof. split; reflexivity. Qed.

(** * Further properties of the lexer *)

(** ** The cursor *)

Lemma advance_n_S n lx : advance_n (S n) lx = advance (advance_n n lx).
Proof. reflexivity. Qed.

Lemma text_advance_n n lx : text (advance_n n lx) = text lx.
Proof.
  induction n as [|n IH]; [reflexivity|].
  now rewrite advance_n_S, text_advance.
Qed.

Lemma pos_advance_n n lx : pos (advance_n n lx) = pos lx + n.
Proof.
  induction n as [|n IH]; [simpl; lia|].
  rewrite advance_n_S, pos_advance, IH. lia.
Qed.

Lemma remaining_advance_n n lx :
  remaining (advance_n n lx) = skipn n (remaining lx).
Proof.
  induction n as [|n IH]; [reflexivity|].
  now rewrite advance_n_S, remaining_advance, IH, skipn_S_tl.
Qed.

Lemma firstn_S_snoc (s : str) : forall n c,
  nth_error s n = Some c -> firstn (S n) s = firstn n s ++ [c].
Proof.
  induction s as [|d s IH]; intros [|n] c H; simpl in *; try discriminate.
  - now injection H as ->.
  - f_equal. now apply IH.
Qed.

Lemma cursor_advance_n n : forall lx,
  n <= length (remaining lx) ->
  cursor (advance_n n lx) = pos_after (cursor lx) (firstn n (remaining lx)).
Proof.
  induction n as [|n IH]; intros lx Hn; [reflexivity|].
  assert (Hc : exists c, nth_error (remaining lx) n = Some c).
  { destruct (nth_error (remaining lx) n) eqn:E; [eauto|].
    apply nth_error_None in E. lia. }
  destruct Hc as [c Hc].
  rewrite advance_n_S, (cursor_advance _ c).
  - rewrite IH by lia. rewrite (firstn_S_snoc _ _ _ Hc), pos_after_app. reflexivity.
  - rewrite current_char_hd, remaining_advance_n, <- nth_error_skipn_hd. exact Hc.
Qed.

Lemma pos_after_snoc lc s c : pos_after lc (s ++ [c]) = next_pos (pos_after lc s) c.
Proof. now rewrite pos_after_app. Qed.

Lemma pos_after_line s : forall l k,
  fst (pos_after (l, k) s) = l + count_occ N.eq_dec s LF.
Proof.
  induction s as [|c s IH]; intros l k; [simpl; lia|].
  change (pos_after (l, k) (c :: s)) with (pos_after (next_pos (l, k) c) s).
  unfold next_pos. cbn [fst snd count_occ].
  destruct (N.eqb_spec c LF) as [->|Hc].
  - rewrite IH. destruct (N.eq_dec LF LF); [lia|congruence].
  - rewrite IH. destruct (N.eq_dec c LF); [congruence|lia].
Qed.

Lemma last_line_snoc s c :
  last_line (s ++ [c]) = if N.eqb c LF then [] else last_line s ++ [c].
Proof.
  unfold last_line. rewrite rev_app_distr. simpl.
  destruct (N.eqb c LF); reflexivity.
Qed.

Lemma pos_after_column s : forall l,
  snd (pos_after (l, 1) s) = 1 + length (last_line s).
Proof.
  induction s as [|c s IH] using rev_ind; intros l; [reflexivity|].
  rewrite pos_after_snoc, last_line_snoc. unfold next_pos.
  destruct (N.eqb c LF); cbn [snd length]; [reflexivity|].
  rewrite IH, length_app. simpl. lia.
Qed.

(** X1. After [n] calls of [advance] from the start of a text of at
    least [n] characters, the offset is [n], the text is unchanged, the
    current character is the one at offset [n], and line and column are
    those of that character: the line is one more than the number of
    line feeds passed, the column one more than the number of characters
    passed since the last of them. *)
Theorem advance_keeps_line_and_column (t : str) (n : nat) :
  n <= length t ->
  let lx := advance_n n (Lexer_init t) in
  text lx = t /\
  pos lx = n /\
  current_char lx = nth_error t n /\
  cur_line lx = 1 + count_occ N.eq_dec (firstn n t) LF /\
  cur_column lx = 1 + length (last_line (firstn n t)).
Proof.
  intros Hn lx. subst lx.
  pose proof (cursor_advance_n n (Lexer_init t) Hn) as Hcur.
  rewrite remaining_init in Hcur. change (cursor (Lexer_init t)) with (1, 1) in Hcur.
  repeat split.
  - apply text_advance_n.
  - rewrite pos_advance_n. reflexivity.
  - unfold current_char. rewrite text_advance_n, pos_advance_n. reflexivity.
  - rewrite <- pos_after_line with (k := 1). now rewrite <- Hcur.
  - rewrite <- pos_after_column with (l := 1). now rewrite <- Hcur.
Qed.

Lemma advance_keeps_line_and_column_witness :
  let t := [ch "a"; LF; ch "b"; ch "c"; LF; ch "d"] in
  4 <= length t /\
  let lx := advance_n 4 (Lexer_init t) in
  text lx = t /\
  pos lx = 4 /\
  current_char lx = nth_error t 4 /\
  cur_line lx = 1 + count_occ N.eq_dec (firstn 4 t) LF /\
  cur_column lx = 1 + length (last_line (firstn 4 t)).
Proof.
  split; [simpl; lia|].
  apply (advance_keeps_line_and_column [ch "a"; LF; ch "b"; ch "c"; LF; ch "d"] 4).
  simpl; lia.
Defined.

(** X2. Looking [k] characters ahead gives what [k] calls of [advance]
    would make the current character, and [None] exactly when that
    offset is at or past the end of the text; looking ahead moves
    nothing. *)
Theorem peek_is_advance_then_current (lx : Lexer) (k : nat) :
  peek_char lx k = current_char (advance_n k lx) /\
  (peek_char lx k = None <-> length (text lx) <= pos lx + k) /\
  peek_char lx 0 = current_char lx.
Proof.
  unfold peek_char, current_char. rewrite text_advance_n, pos_advance_n.
  repeat split.
  - apply nth_error_None.
  - apply nth_error_None.
  - now rewrite Nat.add_0_r.
Qed.

(** X3. [skip_whitespace] passes the whole run of spaces and tabs at
    the cursor and nothing more: it stops at the end of the text or on
    the first character that is neither, stays on its line, and moves
    the column and the offset by the length of the run; where the
    current character is no space or tab it changes nothing. *)
Theorem skip_whitespace_passes_run (lx : Lexer) :
  let run := take_while is_hspace (remaining lx) in
  let lx' := skip_whitespace lx in
  remaining lx = run ++ remaining lx' /\
  match remaining lx' with c :: _ => is_hspace c = false | [] => True end /\
  text lx' = text lx /\
  cur_line lx' = cur_line lx /\
  cur_column lx' = cur_column lx + length run /\
  (run = [] -> lx' = lx).
Proof.
  cbv zeta. unfold skip_whitespace.
  destruct (scan_while_spec (fun c => char_in c [SPACE; TAB]) (budget lx) lx [])
    as (_ & H2 & H3 & H4); [rewrite budget_length; lia|].
  fold is_hspace in H2, H3, H4 |- *.
  assert (Hline : Forall (fun c => N.eqb c LF = false)
                    (take_while is_hspace (remaining lx))).
  { eapply Forall_impl; [|apply take_while_Forall].
    unfold is_hspace, char_in. simpl. intros c Hc.
    rewrite !orb_true_iff in Hc. destruct Hc as [Hc|[Hc|Hc]]; [| |discriminate];
      apply N.eqb_eq in Hc; subst c; reflexivity. }
  unfold cursor in H4. rewrite pos_after_same_line in H4 by exact Hline.
  injection H4 as H4 H5.
  repeat split; auto.
  - rewrite H2. symmetry. apply take_drop_while.
  - rewrite H2. destruct (drop_while is_hspace (remaining lx)) as [|c r] eqn:E; auto.
    now apply drop_while_head in E.
  - intros Hrun. unfold budget. destruct (length (text lx) - pos lx); [reflexivity|].
    cbn [scan_while]. rewrite current_char_hd.
    destruct (remaining lx) as [|c r]; [reflexivity|]. simpl in Hrun |- *.
    fold (is_hspace c). destruct (is_hspace c); [discriminate|reflexivity].
Qed.

(** ** The run as a whole *)

Lemma tokenize_loop_more_fuel ucd fuel : forall k lx tokens r,
  tokenize_loop ucd fuel lx tokens = Some r ->
  tokenize_loop ucd (fuel + k) lx tokens = Some r.
Proof.
  induction fuel as [|fuel IH]; intros k lx tokens r H; [discriminate|].
  cbn [tokenize_loop Nat.add] in *.
  destruct (current_char lx) as [c|]; [|exact H].
  destruct (tokenize_step ucd lx c) as [[lx' new]|e]; [|exact H].
  now apply IH.
Qed.

(** X4. [tokenize] ends on every text: every turn of its loop passes at
    least one character, so the loop is left, with the tokens or with an
    exception, within one turn more than there are characters left, and
    more turns allowed change nothing. *)
Theorem tokenize_terminates ucd (lx : Lexer) :
  exists r,
    tokenize ucd lx = Some r /\
    forall fuel, length (text lx) - pos lx < fuel ->
                 tokenize_loop ucd fuel lx [] = Some r.
Proof.
  destruct (tokenize_total ucd lx) as [r Hr]. exists r. split; [exact Hr|].
  intros fuel Hfuel. unfold tokenize in Hr.
  replace fuel with (S (budget lx) + (fuel - S (budget lx)))
    by (unfold budget; lia).
  now apply tokenize_loop_more_fuel.
Qed.

(** X5. The end-of-file token of a run that returns is placed just
    past the last character of the text: its line is one more than the
    number of line feeds in the text, its column one more than the
    number of characters after the last line feed, and its text is
    empty. *)
Theorem eof_token_at_end_of_text ucd (s : str) (toks : list Token) :
  lex ucd s = Some (Return toks) ->
  exists front,
    toks = front ++ [mkToken EOF [] (1 + count_occ N.eq_dec s LF)
                             (1 + length (last_line s))].
Proof.
  intros Hrun. apply tokenize_loop_run in Hrun.
  destruct Hrun as (mid & l & k & E & Epos & _).
  rewrite remaining_init in Epos. change (cursor (Lexer_init s)) with (1, 1) in Epos.
  exists mid. simpl in E. rewrite E. do 3 f_equal.
  - rewrite <- pos_after_line with (k := 1). now rewrite <- Epos.
  - rewrite <- pos_after_column with (l := 1). now rewrite <- Epos.
Qed.

Lemma eof_token_at_end_of_text_witness :
  let s := [ch "a"; LF; SPACE; ch "b"; SPACE] in
  lex ascii_only s
    = Some (Return [mkToken IDENTIFIER [ch "a"] 1 1;
                    mkToken NEWLINE [BACKSLASH; ch "n"] 1 2;
                    mkToken IDENTIFIER [ch "b"] 2 2;
                    mkToken EOF [] 2 4]) /\
  exists front,
    [mkToken IDENTIFIER [ch "a"] 1 1; mkToken NEWLINE [BACKSLASH; ch "n"] 1 2;
     mkToken IDENTIFIER [ch "b"] 2 2; mkToken EOF [] 2 4]
      = front ++ [mkToken EOF [] (1 + count_occ N.eq_dec s LF)
                          (1 + length (last_line s))].
Proof.
  split; [reflexivity|].
  apply (eof_token_at_end_of_text ascii_only
           [ch "a"; LF; SPACE; ch "b"; SPACE]).
  reflexivity.
Defined.

(** ** The tokens of a run *)

Lemma dict_get_keywords_inv s :
  (dict_get keywords s IDENTIFIER = IDENTIFIER /\ ~ In s (map fst keywords)) \/
  (In (dict_get keywords s IDENTIFIER) [IF; WHILE; FOR; PRINT] /\
   fixed_text (dict_get keywords s IDENTIFIER) = Some s).
Proof.
  unfold keywords. cbn [dict_get map fst].
  destruct (str_eqb (py "if") s) eqn:E1.
  { apply str_eqb_eq in E1. subst s. right. simpl. auto. }
  destruct (str_eqb (py "while") s) eqn:E2.
  { apply str_eqb_eq in E2. subst s. right. simpl. auto. }
  destruct (str_eqb (py "for") s) eqn:E3.
  { apply str_eqb_eq in E3. subst s. right. simpl. auto. }
  destruct (str_eqb (py "print") s) eqn:E4.
  { apply str_eqb_eq in E4. subst s. right. simpl. auto 6. }
  left. split; [reflexivity|]. intros [H|[H|[H|[H|[]]]]];
    apply str_eqb_eq in H; congruence.
Qed.

Lemma lookup_single_char_text c ty :
  lookup_char single_char_tokens c = Some ty ->
  fixed_text ty = Some [c] /\
  In ty [PLUS; MINUS; MULTIPLY; DIVIDE; ASSIGN; LESS_THAN; GREATER_THAN;
         LEFT_PAREN; RIGHT_PAREN; LEFT_BRACKET; RIGHT_BRACKET; COMMA].
Proof.
  unfold single_char_tokens. cbn [lookup_char].
  repeat match goal with
  | |- context [if N.eqb ?k c then _ else _] =>
      destruct (N.eqb_spec k c) as [E|_];
      [subst c; intros H; injection H as <-; split; [reflexivity|simpl; tauto]|]
  end.
  discriminate.
Qed.

Section TokenFacts.
Variable ucd : UnicodeData.

Lemma token_ok_fixed ty s l k :
  In ty [PLUS; MINUS; MULTIPLY; DIVIDE; ASSIGN; LESS_THAN; GREATER_THAN;
         LEFT_PAREN; RIGHT_PAREN; LEFT_BRACKET; RIGHT_BRACKET; COMMA;
         EQUAL; NOT_EQUAL; LESS_EQUAL; GREATER_EQUAL;
         IF; WHILE; FOR; PRINT; NEWLINE; EOF] ->
  fixed_text ty = Some s ->
  token_ok ucd (mkToken ty s l k).
Proof.
  intros Hin Hf. unfold token_ok. cbn [type value].
  simpl in Hin.
  repeat (destruct Hin as [<-|Hin]; [exact Hf|]). contradiction.
Qed.

Lemma tokenize_step_tokens_ok lx c r lx' new :
  remaining lx = c :: r ->
  tokenize_step ucd lx c = Return (lx', new) ->
  Forall (token_ok ucd) new.
Proof.
  intros Hrem Hrun. unfold tokenize_step in Hrun.
  destruct (char_in c [SPACE; TAB]).
  { injection Hrun as <- <-. constructor. }
  destruct (N.eqb c LF).
  { injection Hrun as <- <-. constructor; [|constructor].
    apply token_ok_fixed; [simpl; tauto | reflexivity]. }
  destruct (isdigit ucd c) eqn:Ed.
  { destruct (read_number_spec ucd lx) as (S1 & _).
    destruct (read_number ucd lx) as [lx1 t]. simpl in S1.
    injection Hrun as <- <-. constructor; [|constructor]. subst t.
    unfold token_ok. cbn [type value]. rewrite Hrem.
    unfold number_span, number_text. cbn [take_while drop_while]. rewrite Ed.
    destruct (drop_while (isdigit ucd) r) as [|d r'].
    - exists (c :: take_while (isdigit ucd) r), []. cbn [fst].
      repeat split; auto; [discriminate|].
      constructor; [exact Ed | apply take_while_Forall].
    - destruct (N.eqb d DOT); cbn [fst].
      + exists (c :: take_while (isdigit ucd) r), (take_while (isdigit ucd) r').
        repeat split; auto; [discriminate | | apply take_while_Forall].
        constructor; [exact Ed | apply take_while_Forall].
      + exists (c :: take_while (isdigit ucd) r), [].
        repeat split; auto; [discriminate|].
        constructor; [exact Ed | apply take_while_Forall]. }
  destruct (char_in c [DQUOTE; SQUOTE]).
  { destruct (read_string lx) as [[lx1 t]|e] eqn:E; [|discriminate].
    cbn [bind] in Hrun. injection Hrun as <- <-.
    destruct (read_string_inv _ _ _ _ _ Hrem E) as (raw & _ & _ & D & _).
    subst t. constructor; [|constructor]. exact I. }
  destruct (isalpha ucd c || N.eqb c UNDERSCORE) eqn:Ea.
  { destruct (read_identifier_spec ucd lx) as (S1 & _).
    destruct (read_identifier ucd lx) as [lx1 t]. cbn [snd] in S1.
    injection Hrun as <- <-. constructor; [|constructor]. subst t.
    set (txt := take_while (ident_char ucd) (remaining lx)).
    assert (Hid : identifier_text ucd txt).
    { unfold identifier_text, txt. rewrite Hrem. cbn [take_while].
      assert (Hi : ident_char ucd c = true).
      { unfold ident_char. rewrite orb_true_iff in *.
        destruct Ea as [Ea|Ea]; [left; now apply isalpha_isalnum | now right]. }
      rewrite Hi. split; [exact Ea|].
      constructor; [exact Hi | apply take_while_Forall]. }
    destruct (dict_get_keywords_inv txt) as [[E Hn]|[Hin Hf]].
    - rewrite E. unfold token_ok. cbn [type value]. auto.
    - apply token_ok_fixed; [|exact Hf]. simpl in Hin |- *. tauto. }
  destruct (two_char_at lx c (ch "=")).
  { injection Hrun as <- <-. constructor; [|constructor].
    apply token_ok_fixed; [simpl; tauto | reflexivity]. }
  destruct (two_char_at lx c (ch "!")).
  { injection Hrun as <- <-. constructor; [|constructor].
    apply token_ok_fixed; [simpl; tauto | reflexivity]. }
  destruct (two_char_at lx c (ch "<")).
  { injection Hrun as <- <-. constructor; [|constructor].
    apply token_ok_fixed; [simpl; tauto | reflexivity]. }
  destruct (two_char_at lx c (ch ">")).
  { injection Hrun as <- <-. constructor; [|constructor].
    apply token_ok_fixed; [simpl; tauto | reflexivity]. }
  destruct (lookup_char single_char_tokens c) as [ty|] eqn:El; [|discriminate].
  injection Hrun as <- <-. constructor; [|constructor].
  destruct (lookup_single_char_text _ _ El) as [Hf Hin].
  apply token_ok_fixed; [|exact Hf]. simpl in Hin |- *. tauto.
Qed.

(** A property that the tokens of every turn and the end-of-file token
    have holds of all the tokens of a run. *)
Lemma tokenize_loop_Forall (P : Token -> Prop) :
  (forall lx c r lx' new,
      remaining lx = c :: r ->
      tokenize_step ucd lx c = Return (lx', new) -> Forall P new) ->
  (forall l k, P (mkToken EOF [] l k)) ->
  forall fuel lx tokens toks,
    Forall P tokens ->
    tokenize_loop ucd fuel lx tokens = Some (Return toks) ->
    Forall P toks.
Proof.
  intros Hstep Heof.
  induction fuel as [|fuel IH]; intros lx tokens toks Ht Hrun; [discriminate|].
  cbn [tokenize_loop] in Hrun. destruct (current_char lx) as [c|] eqn:Ec.
  - destruct (current_char_some _ _ Ec) as [r Hr].
    destruct (tokenize_step ucd lx c) as [[lx' new]|e] eqn:Es; [|discriminate].
    apply (IH lx' (tokens ++ new)); [|exact Hrun].
    apply Forall_app. split; [exact Ht|]. eapply Hstep; eauto.
  - injection Hrun as <-. apply Forall_app. split; [exact Ht|].
    constructor; [apply Heof | constructor].
Qed.

Lemma run_tokens_ok (s : str) (toks : list Token) :
  lex ucd s = Some (Return toks) -> Forall (token_ok ucd) toks.
Proof.
  apply tokenize_loop_Forall; [| |constructor].
  - apply tokenize_step_tokens_ok.
  - intros l k. apply token_ok_fixed; [simpl; tauto | reflexivity].
Qed.
End TokenFacts.

(** X6. No run gives a token of kind WHITESPACE: the kind is declared
    and never used, spaces and tabs leave no token. *)
Theorem tokenize_never_emits_WHITESPACE ucd (s : str) (toks : list Token) :
  lex ucd s = Some (Return toks) ->
  Forall (fun t => type t <> WHITESPACE) toks.
Proof.
  intros Hrun. apply run_tokens_ok in Hrun.
  eapply Forall_impl; [|exact Hrun].
  intros t Hok Hty. unfold token_ok in Hok. now rewrite Hty in Hok.
Qed.

Lemma tokenize_never_emits_WHITESPACE_witness :
  let s := [SPACE; TAB; ch "a"; SPACE; SPACE] in
  lex ascii_only s
    = Some (Return [mkToken IDENTIFIER [ch "a"] 1 3; mkToken EOF [] 1 6]) /\
  Forall (fun t => type t <> WHITESPACE)
         [mkToken IDENTIFIER [ch "a"] 1 3; mkToken EOF [] 1 6].
Proof.
  split; [reflexivity|].
  apply (tokenize_never_emits_WHITESPACE ascii_only
           [SPACE; TAB; ch "a"; SPACE; SPACE]).
  reflexivity.
Defined.

(** X7. In a run that returns, the kind of an operator, delimiter,
    keyword, newline or end-of-file token fixes its text: a token of
    kind IF has the text [if], a token of kind LESS_EQUAL the text [<=],
    a NEWLINE token the two characters backslash and [n], the
    end-of-file token the empty text. *)
Theorem token_kind_fixes_text ucd (s : str) (toks : list Token) (t : Token) (txt : str) :
  lex ucd s = Some (Return toks) ->
  In t toks ->
  fixed_text (type t) = Some txt ->
  value t = txt.
Proof.
  intros Hrun Hin Hf. apply run_tokens_ok in Hrun.
  rewrite Forall_forall in Hrun. specialize (Hrun t Hin).
  unfold token_ok in Hrun.
  destruct (type t); simpl in Hf, Hrun; try discriminate; congruence.
Qed.

Lemma token_kind_fixes_text_witness :
  let s := [ch "i"; ch "f"; LF] in
  let t := mkToken NEWLINE [BACKSLASH; ch "n"] 1 3 in
  let toks := [mkToken IF [ch "i"; ch "f"] 1 1; t; mkToken EOF [] 2 1] in
  lex ascii_only s = Some (Return toks) /\
  In t toks /\
  fixed_text (type t) = Some [BACKSLASH; ch "n"] /\
  value t = [BACKSLASH; ch "n"].
Proof.
  split; [reflexivity|]. split; [simpl; auto|]. split; [reflexivity|].
  apply (token_kind_fixes_text ascii_only [ch "i"; ch "f"; LF]
           [mkToken IF [ch "i"; ch "f"] 1 1;
            mkToken NEWLINE [BACKSLASH; ch "n"] 1 3; mkToken EOF [] 2 1]
           (mkToken NEWLINE [BACKSLASH; ch "n"] 1 3)).
  - reflexivity.
  - simpl; auto.
  - reflexivity.
Defined.

(** X8. In a run that returns, the text of an IDENTIFIER token starts
    with a letter or an underscore, goes on with alphanumeric characters
    and underscores, and is none of the keywords: [if], [while], [for]
    and [print] never come out as identifiers. *)
Theorem identifier_token_text ucd (s : str) (toks : list Token) (t : Token) :
  lex ucd s = Some (Return toks) ->
  In t toks ->
  type t = IDENTIFIER ->
  identifier_text ucd (value t) /\
  ~ In (value t) [py "if"; py "while"; py "for"; py "print"].
Proof.
  intros Hrun Hin Hty. apply run_tokens_ok in Hrun.
  rewrite Forall_forall in Hrun. specialize (Hrun t Hin).
  unfold token_ok in Hrun. rewrite Hty in Hrun. exact Hrun.
Qed.

Lemma identifier_token_text_witness :
  let s := py "_x1 + 2" in
  let t := mkToken IDENTIFIER (py "_x1") 1 1 in
  let toks := [t; mkToken PLUS (py "+") 1 5; mkToken NUMBER (py "2") 1 7;
               mkToken EOF [] 1 8] in
  lex ascii_only s = Some (Return toks) /\
  In t toks /\
  type t = IDENTIFIER /\
  identifier_text ascii_only (value t) /\
  ~ In (value t) [py "if"; py "while"; py "for"; py "print"].
Proof.
  split; [reflexivity|]. split; [simpl; auto|]. split; [reflexivity|].
  apply (identifier_token_text ascii_only (py "_x1 + 2")
           [mkToken IDENTIFIER (py "_x1") 1 1; mkToken PLUS (py "+") 1 5;
            mkToken NUMBER (py "2") 1 7; mkToken EOF [] 1 8]
           (mkToken IDENTIFIER (py "_x1") 1 1)).
  - reflexivity.
  - simpl; auto.
  - reflexivity.
Defined.

(** X9. In a run that returns, the text of a NUMBER token is one digit
    or more, followed or not by one dot and digits, possibly none: it
    has no sign and no exponent, never starts with a dot, and may end
    with one. *)
Theorem number_token_text ucd (s : str) (toks : list Token) (t : Token) :
  lex ucd s = Some (Return toks) ->
  In t toks ->
  type t = NUMBER ->
  number_text ucd (value t).
Proof.
  intros Hrun Hin Hty. apply run_tokens_ok in Hrun.
  rewrite Forall_forall in Hrun. specialize (Hrun t Hin).
  unfold token_ok in Hrun. rewrite Hty in Hrun. exact Hrun.
Qed.

Lemma number_token_text_witness :
  let s := py "-2.5" in
  let t := mkToken NUMBER (py "2.5") 1 2 in
  let toks := [mkToken MINUS (py "-") 1 1; t; mkToken EOF [] 1 5] in
  lex ascii_only s = Some (Return toks) /\
  In t toks /\
  type t = NUMBER /\
  number_text ascii_only (value t).
Proof.
  split; [reflexivity|]. split; [simpl; auto|]. split; [reflexivity|].
  apply (number_token_text ascii_only (py "-2.5")
           [mkToken MINUS (py "-") 1 1; mkToken NUMBER (py "2.5") 1 2;
            mkToken EOF [] 1 5]
           (mkToken NUMBER (py "2.5") 1 2)).
  - reflexivity.
  - simpl; auto.
  - reflexivity.
Defined.

(** ** The failures of a run *)

(** The loop of [read_string] raises only on a backslash that ends the
    text. *)
Lemma read_string_loop_raise fuel : forall q lx result e,
  read_string_loop fuel (Some q) lx result = Raise e ->
  e = TypeError /\
  exists raw, remaining lx = raw ++ [BACKSLASH] /\ closed_body q raw = true.
Proof.
  induction fuel as [|fuel IH]; intros q lx result e Hrun; [discriminate|].
  cbn [read_string_loop] in Hrun.
  destruct (remaining lx) as [|c r] eqn:E.
  { rewrite (current_char_nil lx E) in Hrun. discriminate. }
  destruct (advance_cons _ _ _ E) as (Hc & Hr & _).
  rewrite Hc in Hrun. cbn [is_quote] in Hrun.
  destruct (N.eqb c q) eqn:Eq; [discriminate|].
  destruct (N.eqb_spec c BACKSLASH) as [->|Hb].
  - destruct r as [|d r].
    + rewrite (current_char_nil _ Hr) in Hrun. injection Hrun as <-.
      split; [reflexivity|]. exists []. auto.
    + destruct (advance_cons _ _ _ Hr) as (Hc1 & Hr1 & _).
      rewrite Hc1 in Hrun. apply IH in Hrun.
      destruct Hrun as (-> & raw & R & C). split; [reflexivity|].
      exists (BACKSLASH :: d :: raw). rewrite Hr1 in R. subst r.
      split; [reflexivity|]. cbn [closed_body]. now rewrite Eq.
  - apply IH in Hrun. destruct Hrun as (-> & raw & R & C).
    split; [reflexivity|]. exists (c :: raw). rewrite Hr in R. subst r.
    split; [reflexivity|]. cbn [closed_body]. rewrite Eq.
    apply N.eqb_neq in Hb. now rewrite Hb.
Qed.

(** [read_string] raises in two cases only: the literal is cut after a
    backslash, or the text ends before the closing quote. *)
Lemma read_string_raise lx q s e :
  remaining lx = q :: s ->
  read_string lx = Raise e ->
  (e = TypeError /\
   exists raw, s = raw ++ [BACKSLASH] /\ closed_body q raw = true) \/
  (e = UnterminatedString (fst (pos_after (cursor lx) (q :: s))) (cur_column lx) /\
   closed_body q s = true).
Proof.
  intros Hrem Hrun. unfold read_string in Hrun.
  destruct (advance_cons _ _ _ Hrem) as (Hc & Hr & Ht & Hp). rewrite Hc in Hrun.
  destruct (read_string_loop (budget (advance lx)) (Some q) (advance lx) [])
    as [[lx1 res]|e'] eqn:E.
  - right. apply read_string_loop_inv in E; [|rewrite budget_length; lia].
    destruct E as (raw & R & C & _ & _ & P & Q).
    cbn [bind] in Hrun. rewrite current_char_hd in Hrun.
    destruct Q as [Q|[rest Q]]; rewrite Q in Hrun; cbn in Hrun.
    + injection Hrun as <-. rewrite Hr, Q, app_nil_r in R. subst raw.
      split; [|exact C]. do 2 f_equal.
      change (q :: s) with ([q] ++ s). rewrite pos_after_app.
      change (pos_after (cursor lx) [q]) with (next_pos (cursor lx) q).
      rewrite <- Hp, <- P. reflexivity.
    + rewrite N.eqb_refl in Hrun. discriminate.
  - left. cbn [bind] in Hrun. injection Hrun as <-.
    apply read_string_loop_raise in E. destruct E as (-> & raw & R & C).
    split; [reflexivity|]. exists raw. rewrite Hr in R. auto.
Qed.

Lemma lookup_none_not_listed c :
  lookup_char single_char_tokens c = None <->
  char_in c (py "+-*/=<>()[],") = false.
Proof.
  unfold single_char_tokens, char_in. cbn [lookup_char py list_ascii_of_string map existsb].
  repeat match goal with
  | |- context [if N.eqb ?k c then _ else _] =>
      rewrite (N.eqb_sym k c); destruct (N.eqb c k);
      [cbn [orb]; split; discriminate|cbn [orb]]
  end.
  split; reflexivity.
Qed.

Section FailureFacts.
Variable ucd : UnicodeData.

Lemma recognised_false c :
  recognised ucd c = false <->
  char_in c [SPACE; TAB] = false /\ N.eqb c LF = false /\
  isdigit ucd c = false /\ char_in c [DQUOTE; SQUOTE] = false /\
  isalpha ucd c || N.eqb c UNDERSCORE = false /\
  lookup_char single_char_tokens c = None.
Proof.
  unfold recognised, is_hspace. rewrite lookup_none_not_listed.
  rewrite !orb_false_iff. tauto.
Qed.

Lemma two_char_at_listed lx c a :
  char_in a (py "+-*/=<>()[],") = true ->
  char_in c (py "+-*/=<>()[],") = false ->
  two_char_at lx c a = false.
Proof.
  intros Ha Hc. unfold two_char_at.
  destruct (N.eqb_spec c a) as [->|_]; [congruence|reflexivity].
Qed.

(** A turn of the loop raises in two cases only: the current character
    starts nothing, or it is a quote and [read_string] raises. *)
Lemma tokenize_step_raise lx c r e :
  remaining lx = c :: r ->
  tokenize_step ucd lx c = Raise e ->
  (e = UnexpectedCharacter c (cur_line lx) (cur_column lx) /\
   recognised ucd c = false) \/
  ((c = DQUOTE \/ c = SQUOTE) /\ read_string lx = Raise e).
Proof.
  intros Hrem Hrun. unfold tokenize_step in Hrun.
  destruct (char_in c [SPACE; TAB]) eqn:Ews; [discriminate|].
  destruct (N.eqb c LF) eqn:Elf; [discriminate|].
  destruct (isdigit ucd c) eqn:Ed.
  { destruct (read_number ucd lx). discriminate. }
  destruct (char_in c [DQUOTE; SQUOTE]) eqn:Eq.
  { right. split.
    - unfold char_in in Eq. simpl in Eq. rewrite !orb_true_iff in Eq.
      destruct Eq as [Eq|[Eq|Eq]]; [| |discriminate];
        apply N.eqb_eq in Eq; auto.
    - destruct (read_string lx) as [[lx1 t]|e']; [discriminate|].
      cbn [bind] in Hrun. now injection Hrun as ->. }
  destruct (isalpha ucd c || N.eqb c UNDERSCORE) eqn:Ea.
  { destruct (read_identifier ucd lx). discriminate. }
  destruct (two_char_at lx c (ch "=")); [discriminate|].
  destruct (two_char_at lx c (ch "!")); [discriminate|].
  destruct (two_char_at lx c (ch "<")); [discriminate|].
  destruct (two_char_at lx c (ch ">")); [discriminate|].
  destruct (lookup_char single_char_tokens c) eqn:El; [discriminate|].
  injection Hrun as <-. left. split; [reflexivity|].
  apply recognised_false. auto 7.
Qed.

Lemma step_placed lx lx' new span rest tail :
  step_post lx lx' new span ->
  placed (cursor lx') rest tail ->
  placed (cursor lx) (new ++ rest) (span ++ tail).
Proof.
  intros (_ & _ & _ & P & Hnew) Hpl. rewrite P in Hpl.
  destruct Hnew as [[-> Hb]|(t & -> & Hsp & _ & Hcol & Hl1 & Hl2)].
  - now apply placed_blanks.
  - apply placed_token; auto.
    assert (Hend : cur_line lx' = fst (pos_after (cursor lx) span))
      by (rewrite <- P; reflexivity).
    destruct (type t) eqn:Et; try (apply Hl1; discriminate).
    rewrite <- Hend. now apply Hl2.
Qed.

(** A run that raises has lexed a prefix of the remaining text and
    raises in the turn that follows it. *)
Lemma tokenize_loop_raise fuel : forall lx tokens e,
  tokenize_loop ucd fuel lx tokens = Some (Raise e) ->
  exists pre lx' c done,
    remaining lx = pre ++ remaining lx' /\
    cursor lx' = pos_after (cursor lx) pre /\
    current_char lx' = Some c /\
    tokenize_step ucd lx' c = Raise e /\
    placed (cursor lx) done pre.
Proof.
  induction fuel as [|fuel IH]; intros lx tokens e Hrun; [discriminate|].
  cbn [tokenize_loop] in Hrun.
  destruct (current_char lx) as [c|] eqn:Ec; [|discriminate].
  destruct (current_char_some _ _ Ec) as [r Hr].
  destruct (tokenize_step ucd lx c) as [[lx1 new]|e'] eqn:Es.
  - destruct (tokenize_step_spec ucd _ _ _ _ _ Hr Es) as [span Hp].
    destruct (IH _ _ _ Hrun) as (pre & lx' & c' & done & R & P & C & S & Hpl).
    exists (span ++ pre), lx', c', (new ++ done).
    pose proof Hp as (_ & R1 & _ & P1 & _).
    repeat split; auto.
    + now rewrite R1, R, app_assoc.
    + now rewrite P, P1, pos_after_app.
    + now apply (step_placed lx lx1).
  - injection Hrun as <-. exists [], lx, c, [].
    repeat split; auto. constructor.
Qed.
End FailureFacts.

Lemma lex_raise ucd (s : str) (e : exn) :
  lex ucd s = Some (Raise e) ->
  exists pre c rest done lx',
    s = pre ++ c :: rest /\
    placed (1, 1) done pre /\
    remaining lx' = c :: rest /\
    cursor lx' = pos_after (1, 1) pre /\
    ((e = UnexpectedCharacter c (cur_line lx') (cur_column lx') /\
      recognised ucd c = false) \/
     ((c = DQUOTE \/ c = SQUOTE) /\ read_string lx' = Raise e)).
Proof.
  intros Hrun. apply tokenize_loop_raise in Hrun.
  destruct Hrun as (pre & lx' & c & done & R & P & C & S & Hpl).
  destruct (current_char_some _ _ C) as [rest Hrest].
  rewrite remaining_init, Hrest in R.
  exists pre, c, rest, done, lx'. repeat split; auto.
  now apply (tokenize_step_raise ucd lx' c rest).
Qed.

Lemma cursor_line_column lx pre :
  cursor lx = pos_after (1, 1) pre ->
  cur_line lx = 1 + count_occ N.eq_dec pre LF /\
  cur_column lx = 1 + length (last_line pre).
Proof.
  intros H. split.
  - rewrite <- pos_after_line with (k := 1). now rewrite <- H.
  - rewrite <- pos_after_column with (l := 1). now rewrite <- H.
Qed.

(** The turns of the loop pass a prefix of the remaining text, of which
    the tokens they add are the tokens, and keep the text. *)
Lemma turns_trace ucd lx done lx' :
  turns ucd lx done lx' ->
  exists pre,
    remaining lx = pre ++ remaining lx' /\
    cursor lx' = pos_after (cursor lx) pre /\
    text lx' = text lx /\
    placed (cursor lx) done pre.
Proof.
  induction 1 as [lx|lx c lx1 new done lx' Hc Hs _ IH].
  - exists []. repeat split; auto. constructor.
  - destruct (current_char_some _ _ Hc) as [r Hr].
    destruct (tokenize_step_spec ucd _ _ _ _ _ Hr Hs) as [span Hp].
    destruct IH as (pre & R & P & T & Hpl).
    pose proof Hp as (_ & R1 & T1 & P1 & _).
    exists (span ++ pre). repeat split.
    + now rewrite R1, R, app_assoc.
    + now rewrite P, P1, pos_after_app.
    + congruence.
    + now apply (step_placed lx lx1).
Qed.

(** A run that raises has made turns without fault up to a state whose
    turn raises. *)
Lemma tokenize_loop_raise_turns ucd fuel : forall lx tokens e,
  tokenize_loop ucd fuel lx tokens = Some (Raise e) ->
  exists done lx' c,
    turns ucd lx done lx' /\
    current_char lx' = Some c /\
    tokenize_step ucd lx' c = Raise e.
Proof.
  induction fuel as [|fuel IH]; intros lx tokens e Hrun; [discriminate|].
  cbn [tokenize_loop] in Hrun.
  destruct (current_char lx) as [c|] eqn:Ec; [|discriminate].
  destruct (tokenize_step ucd lx c) as [[lx1 new]|e'] eqn:Es.
  - destruct (IH _ _ _ Hrun) as (done & lx' & c' & Ht & C & S).
    exists (new ++ done), lx', c'. repeat split; auto.
    now apply (turns_more ucd lx c lx1).
  - injection Hrun as <-. exists [], lx, c. repeat split; auto. constructor.
Qed.

Lemma step_moves_on ucd lx c lx1 new :
  current_char lx = Some c ->
  tokenize_step ucd lx c = Return (lx1, new) ->
  pos lx < pos lx1.
Proof.
  intros Hc Hs. destruct (current_char_some _ _ Hc) as [r Hr].
  destruct (tokenize_step_spec ucd _ _ _ _ _ Hr Hs) as [span Hp].
  pose proof (step_post_shorter _ _ _ _ Hp) as Hlt.
  destruct Hp as (_ & _ & T1 & _).
  rewrite <- !budget_length in Hlt. unfold budget in Hlt. rewrite T1 in Hlt.
  lia.
Qed.

Lemma turns_pos ucd lx done lx' :
  turns ucd lx done lx' -> pos lx <= pos lx'.
Proof.
  induction 1 as [lx|lx c lx1 new done lx' Hc Hs _ IH]; [lia|].
  pose proof (step_moves_on ucd lx c lx1 new Hc Hs). lia.
Qed.

(** The turns are those of the run: the state they leave at an offset is
    one state, reached with one sequence of tokens. *)
Lemma turns_deterministic ucd lx done1 lx1 :
  turns ucd lx done1 lx1 ->
  forall done2 lx2,
    turns ucd lx done2 lx2 -> pos lx1 = pos lx2 ->
    lx1 = lx2 /\ done1 = done2.
Proof.
  induction 1 as [lx|lx c la new done lx1 Hc Hs Ht IH]; intros done2 lx2 H2 Hpos.
  - inversion H2 as [|? c' lb new' done' ? Hc' Hs' Ht']; subst; [auto|].
    pose proof (step_moves_on ucd _ _ _ _ Hc' Hs').
    pose proof (turns_pos ucd _ _ _ Ht'). lia.
  - pose proof (step_moves_on ucd _ _ _ _ Hc Hs) as Hlt.
    pose proof (turns_pos ucd _ _ _ Ht) as Hle.
    inversion H2 as [|? c' lb new' done' ? Hc' Hs' Ht']; subst; [lia|].
    rewrite Hc in Hc'. injection Hc' as <-. rewrite Hs in Hs'.
    injection Hs' as <- <-.
    destruct (IH _ _ Ht' Hpos) as [-> ->]. auto.
Qed.

Lemma pos_of_remaining lx (pre tail : str) :
  text lx = pre ++ tail -> remaining lx = tail -> tail <> [] ->
  pos lx = length pre.
Proof.
  intros Ht Hr Hne. pose proof (length_skipn (pos lx) (text lx)) as H.
  fold (remaining lx) in H. rewrite Hr, Ht, length_app in H.
  destruct tail; [congruence|]. simpl in H. lia.
Qed.

(** The state in which a run raises: it is reached from the start by
    turns without fault, it stands just after the prefix [pre] that
    these turns have passed, on the character [c], and its turn raises. *)
Lemma lex_raise_turns ucd (s : str) (e : exn) :
  lex ucd s = Some (Raise e) ->
  exists pre c rest done lx',
    s = pre ++ c :: rest /\
    turns ucd (Lexer_init s) done lx' /\
    text lx' = s /\
    pos lx' = length pre /\
    remaining lx' = c :: rest /\
    cursor lx' = pos_after (1, 1) pre /\
    placed (1, 1) done pre /\
    tokenize_step ucd lx' c = Raise e.
Proof.
  intros Hrun. apply tokenize_loop_raise_turns in Hrun.
  destruct Hrun as (done & lx' & c & Ht & C & S).
  destruct (turns_trace ucd _ _ _ Ht) as (pre & R & P & T & Hpl).
  destruct (current_char_some _ _ C) as [rest Hrest].
  rewrite remaining_init, Hrest in R. change (text (Lexer_init s)) with s in T.
  exists pre, c, rest, done, lx'. repeat split; auto.
  apply (pos_of_remaining lx' pre (c :: rest)); [congruence | auto | discriminate].
Qed.

(** X10. When a run fails on an unrecognised character, the failure
    names that character and its own place.  The loop has made turns
    without fault over the text before it, which add the tokens [done]
    and bring the lexer just in front of it, and the turn made there
    raises the failure.  The line reported is one more than the number
    of line feeds before the character, the column one more than the
    number of characters between the last of them and it, and the
    character is no blank, line feed, digit, quote, letter, underscore,
    nor one of [+ - * / = < > ( ) [ ] ,]. *)
Theorem unexpected_character_is_located ucd (s : str) (c : char) (l k : nat) :
  lex ucd s = Some (Raise (UnexpectedCharacter c l k)) ->
  exists pre rest done lx',
    s = pre ++ c :: rest /\
    turns ucd (Lexer_init s) done lx' /\
    text lx' = s /\
    pos lx' = length pre /\
    tokenize_step ucd lx' c = Raise (UnexpectedCharacter c l k) /\
    placed (1, 1) done pre /\
    l = 1 + count_occ N.eq_dec pre LF /\
    k = 1 + length (last_line pre) /\
    recognised ucd c = false.
Proof.
  intros Hrun. apply lex_raise_turns in Hrun.
  destruct Hrun as (pre & c' & rest & done & lx' & E & Ht & T & Hpos & R & P & Hpl & S).
  destruct (cursor_line_column lx' pre P) as [Hl Hk].
  destruct (tokenize_step_raise ucd lx' c' rest _ R S) as [[He Hrec]|[_ Hs]].
  - injection He as Ec El Ek. subst c' l k.
    exists pre, rest, done, lx'. repeat split; auto.
  - destruct (read_string_raise lx' c' rest _ R Hs) as [[He _]|[He _]];
      discriminate.
Qed.

Lemma unexpected_character_is_located_witness :
  let s := [ch "a"; LF; ch "b"; SPACE; ch "?"; ch "c"] in
  lex ascii_only s = Some (Raise (UnexpectedCharacter (ch "?") 2 3)) /\
  exists pre rest done lx',
    s = pre ++ ch "?" :: rest /\
    turns ascii_only (Lexer_init s) done lx' /\
    text lx' = s /\
    pos lx' = length pre /\
    tokenize_step ascii_only lx' (ch "?")
      = Raise (UnexpectedCharacter (ch "?") 2 3) /\
    placed (1, 1) done pre /\
    2 = 1 + count_occ N.eq_dec pre LF /\
    3 = 1 + length (last_line pre) /\
    recognised ascii_only (ch "?") = false.
Proof.
  split; [reflexivity|].
  apply (unexpected_character_is_located ascii_only
           [ch "a"; LF; ch "b"; SPACE; ch "?"; ch "c"]).
  reflexivity.
Defined.

(** X11. When a run fails on an unclosed string, the text ends inside
    a literal.  The loop has made turns without fault over the text
    before the literal, which add the tokens [done] and bring the lexer
    just in front of its opening quote; [read_string], entered there,
    raises the failure; and what follows the quote, up to the end of the
    text, is a body with no closing quote.  The column reported is the
    column of that opening quote; the line reported is the line where
    the text ends, one more than the number of line feeds in the whole
    text. *)
Theorem unterminated_string_is_located ucd (s : str) (l k : nat) :
  lex ucd s = Some (Raise (UnterminatedString l k)) ->
  exists pre q raw done lx',
    s = pre ++ q :: raw /\
    turns ucd (Lexer_init s) done lx' /\
    text lx' = s /\
    pos lx' = length pre /\
    read_string lx' = Raise (UnterminatedString l k) /\
    placed (1, 1) done pre /\
    (q = DQUOTE \/ q = SQUOTE) /\
    closed_body q raw = true /\
    k = 1 + length (last_line pre) /\
    l = 1 + count_occ N.eq_dec s LF.
Proof.
  intros Hrun. apply lex_raise_turns in Hrun.
  destruct Hrun as (pre & q & raw & done & lx' & E & Ht & T & Hpos & R & P & Hpl & S).
  destruct (cursor_line_column lx' pre P) as [Hl Hk].
  destruct (tokenize_step_raise ucd lx' q raw _ R S) as [[He _]|[Hq Hs]];
    [discriminate|].
  destruct (read_string_raise lx' q raw _ R Hs) as [[He _]|[He Hcl]];
    [discriminate|].
  injection He as El Ek. subst l k. exists pre, q, raw, done, lx'.
  repeat split; auto.
  change (pos_after (next_pos (cursor lx') q) raw)
    with (pos_after (cursor lx') (q :: raw)).
  rewrite P, <- pos_after_app, <- E. apply pos_after_line.
Qed.

Lemma unterminated_string_is_located_witness :
  let s := [ch "a"; SPACE; SQUOTE; ch "b"; LF; ch "c"] in
  lex ascii_only s = Some (Raise (UnterminatedString 2 3)) /\
  exists pre q raw done lx',
    s = pre ++ q :: raw /\
    turns ascii_only (Lexer_init s) done lx' /\
    text lx' = s /\
    pos lx' = length pre /\
    read_string lx' = Raise (UnterminatedString 2 3) /\
    placed (1, 1) done pre /\
    (q = DQUOTE \/ q = SQUOTE) /\
    closed_body q raw = true /\
    3 = 1 + length (last_line pre) /\
    2 = 1 + count_occ N.eq_dec s LF.
Proof.
  split; [reflexivity|].
  apply (unterminated_string_is_located ascii_only
           [ch "a"; SPACE; SQUOTE; ch "b"; LF; ch "c"]).
  reflexivity.
Defined.

(** X12. A run ends with the [TypeError] in one case only: the text
    ends with a backslash inside a string literal that is still open.
    The loop has made turns without fault over the text before the
    literal, which add the tokens [done] and bring the lexer just in
    front of its opening quote; [read_string], entered there, raises
    the [TypeError]; and what follows the quote, up to the end of the
    text, is a body with no closing quote and then a last backslash. *)
Theorem type_error_only_on_final_backslash ucd (s : str) :
  lex ucd s = Some (Raise TypeError) ->
  exists pre q raw done lx',
    s = pre ++ q :: raw ++ [BACKSLASH] /\
    turns ucd (Lexer_init s) done lx' /\
    text lx' = s /\
    pos lx' = length pre /\
    read_string lx' = Raise TypeError /\
    placed (1, 1) done pre /\
    (q = DQUOTE \/ q = SQUOTE) /\
    closed_body q raw = true.
Proof.
  intros Hrun. apply lex_raise_turns in Hrun.
  destruct Hrun as (pre & q & rest & done & lx' & E & Ht & T & Hpos & R & P & Hpl & S).
  destruct (tokenize_step_raise ucd lx' q rest _ R S) as [[He _]|[Hq Hs]];
    [discriminate|].
  destruct (read_string_raise lx' q rest _ R Hs) as [[_ (raw & Eraw & Hcl)]|[He _]];
    [|discriminate].
  subst rest. exists pre, q, raw, done, lx'. repeat split; auto.
Qed.

Lemma type_error_only_on_final_backslash_witness :
  let s := [ch "x"; ch "="; DQUOTE; ch "a"; BACKSLASH] in
  lex ascii_only s = Some (Raise TypeError) /\
  exists pre q raw done lx',
    s = pre ++ q :: raw ++ [BACKSLASH] /\
    turns ascii_only (Lexer_init s) done lx' /\
    text lx' = s /\
    pos lx' = length pre /\
    read_string lx' = Raise TypeError /\
    placed (1, 1) done pre /\
    (q = DQUOTE \/ q = SQUOTE) /\
    closed_body q raw = true.
Proof.
  split; [reflexivity|].
  apply (type_error_only_on_final_backslash ascii_only
           [ch "x"; ch "="; DQUOTE; ch "a"; BACKSLASH]).
  reflexivity.
Defined.

(** X13. A text with no quote in it, made of blanks, line feeds,
    digits, letters, underscores and the characters
    [+ - * / = < > ( ) [ ] ,] only, is always lexed: the run returns
    its tokens and raises nothing. *)
Theorem recognised_text_is_lexed ucd (s : str) :
  Forall (fun c => recognised ucd c = true) s ->
  ~ In DQUOTE s ->
  ~ In SQUOTE s ->
  exists toks, lex ucd s = Some (Return toks).
Proof.
  intros Hall Hd Hs.
  destruct (tokenize_total ucd (Lexer_init s)) as [[toks|e] Hr]; [eauto|].
  exfalso. change (tokenize ucd (Lexer_init s)) with (lex ucd s) in Hr.
  apply lex_raise in Hr.
  destruct Hr as (pre & c & rest & done & lx' & E & _ & _ & _ & H).
  assert (Hin : In c s) by (rewrite E; apply in_elt).
  destruct H as [[_ Hrec]|[[->| ->] _]]; auto.
  rewrite Forall_forall in Hall. rewrite (Hall c Hin) in Hrec. discriminate.
Qed.

Lemma recognised_text_is_lexed_witness :
  let s := py "f(a, b) <= [15, _x] * 2" in
  Forall (fun c => recognised ascii_only c = true) s /\
  exists toks, lex ascii_only s = Some (Return toks).
Proof.
  assert (H : Forall (fun c => recognised ascii_only c = true)
                (py "f(a, b) <= [15, _x] * 2")).
  { apply Forall_forall. intros c Hin. simpl in Hin.
    repeat (destruct Hin as [<-|Hin]; [reflexivity|]). contradiction. }
  split; [exact H|].
  apply (recognised_text_is_lexed ascii_only (py "f(a, b) <= [15, _x] * 2") H).
  - simpl. intros Hin.
    repeat (destruct Hin as [Hin|Hin]; [discriminate|]). contradiction.
  - simpl. intros Hin.
    repeat (destruct Hin as [Hin|Hin]; [discriminate|]). contradiction.
Defined.

Lemma option_char_eqb_Some a x : option_char_eqb a (Some x) = true <-> a = Some x.
Proof.
  destruct a as [y|]; simpl; split; intros H; try discriminate.
  - apply N.eqb_eq in H. now subst.
  - injection H as ->. apply N.eqb_refl.
Qed.

(** X14. A turn of the loop rejects the current character, with its
    own line and column, exactly when the character starts nothing: it
    is none of the recognised characters, and it is not an exclamation
    mark followed by [=].  So [!] alone and a dot with no digit before
    it are rejected. *)
Theorem unexpected_character_iff ucd (lx : Lexer) (c : char) :
  current_char lx = Some c ->
  (tokenize_step ucd lx c
     = Raise (UnexpectedCharacter c (cur_line lx) (cur_column lx))
   <->
   recognised ucd c = false /\
   ~ (c = ch "!" /\ peek_char lx 1 = Some (ch "="))).
Proof.
  intros Hc. destruct (current_char_some _ _ Hc) as [r Hr]. split.
  - intros Hrun. destruct (tokenize_step_raise ucd lx c r _ Hr Hrun)
      as [[_ Hrec]|[_ Hs]].
    + split; [exact Hrec|]. intros [-> Hp].
      unfold tokenize_step, two_char_at in Hrun. rewrite Hp in Hrun.
      cbn in Hrun. discriminate.
    + destruct (read_string_raise lx c r _ Hr Hs) as [[He _]|[He _]];
        discriminate.
  - intros [Hrec Hbang]. pose proof Hrec as Hlisted.
    apply recognised_false in Hrec.
    destruct Hrec as (H1 & H2 & H3 & H4 & H5 & H6).
    pose proof (proj1 (lookup_none_not_listed c) H6) as Hl.
    unfold tokenize_step. rewrite H1, H2, H3, H4, H5, H6.
    rewrite (two_char_at_listed lx c (ch "=")) by (exact Hl || reflexivity).
    rewrite (two_char_at_listed lx c (ch "<")) by (exact Hl || reflexivity).
    rewrite (two_char_at_listed lx c (ch ">")) by (exact Hl || reflexivity).
    destruct (two_char_at lx c (ch "!")) eqn:E; [|reflexivity].
    exfalso. apply Hbang. unfold two_char_at in E.
    apply andb_true_iff in E. destruct E as [E1 E2].
    apply N.eqb_eq in E1. apply option_char_eqb_Some in E2. auto.
Qed.

Lemma unexpected_character_iff_witness :
  let lx := mkLexer (py "a ! b") 2 1 3 in
  current_char lx = Some (ch "!") /\
  (tokenize_step ascii_only lx (ch "!")
     = Raise (UnexpectedCharacter (ch "!") (cur_line lx) (cur_column lx))
   <->
   recognised ascii_only (ch "!") = false /\
   ~ (ch "!" = ch "!" /\ peek_char lx 1 = Some (ch "="))).
Proof.
  split; [reflexivity|].
  apply (unexpected_character_iff ascii_only (mkLexer (py "a ! b") 2 1 3) (ch "!")).
  reflexivity.
Defined.

(** ** The order of the tokens *)

Lemma pos_lt_next lc c : pos_lt lc (next_pos lc c).
Proof.
  unfold pos_lt, next_pos. destruct (N.eqb c LF); simpl; lia.
Qed.

Lemma pos_lt_trans a b c : pos_lt a b -> pos_lt b c -> pos_lt a c.
Proof. unfold pos_lt. lia. Qed.

Lemma pos_lt_le_trans a b c : pos_lt a b -> pos_le b c -> pos_lt a c.
Proof.
  intros H [->|H']; [exact H|]. now apply (pos_lt_trans a b c).
Qed.

Lemma pos_le_after s : forall lc, pos_le lc (pos_after lc s).
Proof.
  induction s as [|c s IH]; intros lc; [now left|].
  right. change (pos_after lc (c :: s)) with (pos_after (next_pos lc c) s).
  apply (pos_lt_le_trans _ (next_pos lc c)); [apply pos_lt_next | apply IH].
Qed.

Lemma pos_lt_after s lc : s <> [] -> pos_lt lc (pos_after lc s).
Proof.
  destruct s as [|c s]; [congruence|]. intros _.
  change (pos_after lc (c :: s)) with (pos_after (next_pos lc c) s).
  apply (pos_lt_le_trans _ (next_pos lc c)); [apply pos_lt_next | apply pos_le_after].
Qed.

Section OrderFacts.
Variable ucd : UnicodeData.

Lemma tokenize_loop_sorted fuel : forall lx tokens toks,
  tokenize_loop ucd fuel lx tokens = Some (Return toks) ->
  exists new,
    toks = tokens ++ new /\
    (Forall (fun t => type t <> STRING) new ->
     Forall (fun t => pos_le (cursor lx) (reported t)) new /\
     StronglySorted (fun a b => pos_lt (reported a) (reported b)) new).
Proof.
  induction fuel as [|fuel IH]; intros lx tokens toks Hrun; [discriminate|].
  cbn [tokenize_loop] in Hrun. destruct (current_char lx) as [c|] eqn:Ec.
  - destruct (current_char_some _ _ Ec) as [r Hr].
    destruct (tokenize_step ucd lx c) as [[lx1 new1]|e] eqn:Es; [|discriminate].
    destruct (tokenize_step_spec ucd _ _ _ _ _ Hr Es)
      as (span & Hne & _ & _ & P & Hnew).
    destruct (IH _ _ _ Hrun) as (new2 & E & Hrest).
    assert (Hlt : pos_lt (cursor lx) (cursor lx1))
      by (rewrite P; now apply pos_lt_after).
    exists (new1 ++ new2). split; [now rewrite app_assoc|].
    intros Hall. apply Forall_app in Hall. destruct Hall as [Hall1 Hall2].
    destruct (Hrest Hall2) as [Hle Hsorted].
    assert (Hle' : Forall (fun t => pos_lt (cursor lx) (reported t)) new2).
    { eapply Forall_impl; [|exact Hle]. intros t Ht.
      now apply (pos_lt_le_trans _ (cursor lx1)). }
    destruct Hnew as [[-> _]|(t & -> & _ & _ & Hcol & Hl1 & _)].
    + simpl. split; [|exact Hsorted].
      eapply Forall_impl; [|exact Hle']. intros t Ht. now right.
    + inversion Hall1 as [|? ? Hty _]; subst.
      assert (Hrep : reported t = cursor lx).
      { unfold reported, cursor. now rewrite Hcol, (Hl1 Hty). }
      simpl. split.
      * constructor; [left; now rewrite Hrep|].
        eapply Forall_impl; [|exact Hle']. intros t' Ht'. now right.
      * constructor; [exact Hsorted|]. now rewrite Hrep.
  - injection Hrun as <-. eexists. split; [reflexivity|]. intros _. split.
    + constructor; [now left | constructor].
    + constructor; constructor.
Qed.
End OrderFacts.

(** X15. In a run that returns no string token, the positions the
    tokens report are those where they start and grow strictly along
    the sequence, the end-of-file token included: a later token is on a
    later line, or on the same line at a later column. *)
Theorem token_positions_increase ucd (s : str) (toks : list Token) :
  lex ucd s = Some (Return toks) ->
  Forall (fun t => type t <> STRING) toks ->
  StronglySorted (fun a b => pos_lt (reported a) (reported b)) toks.
Proof.
  intros Hrun Hall. apply tokenize_loop_sorted in Hrun.
  destruct Hrun as (new & E & H). simpl in E. subst new.
  now apply H.
Qed.

Lemma token_positions_increase_witness :
  let s := [ch "a"; SPACE; ch "<"; ch "="; LF; ch "7"] in
  let toks := [mkToken IDENTIFIER [ch "a"] 1 1; mkToken LESS_EQUAL (py "<=") 1 3;
               mkToken NEWLINE [BACKSLASH; ch "n"] 1 5;
               mkToken NUMBER [ch "7"] 2 1; mkToken EOF [] 2 2] in
  lex ascii_only s = Some (Return toks) /\
  Forall (fun t => type t <> STRING) toks /\
  StronglySorted (fun a b => pos_lt (reported a) (reported b)) toks.
Proof.
  assert (H : Forall (fun t => type t <> STRING)
                [mkToken IDENTIFIER [ch "a"] 1 1; mkToken LESS_EQUAL (py "<=") 1 3;
                 mkToken NEWLINE [BACKSLASH; ch "n"] 1 5;
                 mkToken NUMBER [ch "7"] 2 1; mkToken EOF [] 2 2])
    by (repeat constructor; discriminate).
  split; [reflexivity|]. split; [exact H|].
  apply (token_positions_increase ascii_only
           [ch "a"; SPACE; ch "<"; ch "="; LF; ch "7"]).
  - reflexivity.
  - exact H.
Defined.

(** ** The example of the module *)

(** The text that the module lexes when it is run as a program is
    rejected: the colon after [if x > 0], at line 5, column 13, is no
    character of the language, so [tokenize] raises and no token is
    printed. *)
Theorem demo_code_is_rejected ucd :
  lex ucd demo_code = Some (Raise (UnexpectedCharacter (ch ":") 5 13)).
Proof. reflexivity. Qed.

(** ** Strings, line feeds and the number of tokens *)

Lemma plain_body q raw :
  Forall (fun c => c <> q /\ c <> BACKSLASH) raw ->
  closed_body q raw = true /\ decode q raw = raw.
Proof.
  induction 1 as [|c raw [Hq Hb] _ [IH1 IH2]]; [auto|].
  cbn [closed_body decode].
  apply N.eqb_neq in Hq, Hb. rewrite Hq, Hb, IH2. auto.
Qed.

(** X16. Between its quotes a string literal may hold any character
    but its own quote and the backslash, and they are taken as they
    are: blanks, line feeds, the other quote and characters that the
    language rejects elsewhere all go into the text of the one STRING
    token, and the reader stops after the closing quote. *)
Theorem string_body_is_verbatim ucd lx q raw rest :
  q = DQUOTE \/ q = SQUOTE ->
  remaining lx = q :: raw ++ q :: rest ->
  Forall (fun c => c <> q /\ c <> BACKSLASH) raw ->
  exists lx',
    tokenize_step ucd lx q
      = Return (lx', [mkToken STRING raw (cur_line lx') (cur_column lx)]) /\
    remaining lx' = rest /\
    cursor lx' = pos_after (cursor lx) (q :: raw ++ [q]).
Proof.
  intros Hq Hrem Hplain. destruct (plain_body q raw Hplain) as [Hcl Hdec].
  destruct (read_string_closed lx q raw rest Hrem Hcl) as (lx' & E & R & _ & P).
  rewrite Hdec in E. exists lx'. repeat split; auto.
  destruct (quote_cases q Hq) as (_ & Q2 & Q3 & Q4 & Q5).
  unfold tokenize_step. rewrite Q2, Q3, Q4, Q5, E. reflexivity.
Qed.

Lemma string_body_is_verbatim_witness :
  let raw := [ch "a"; DQUOTE; SPACE; ch "?"; LF; ch ":"] in
  let lx := Lexer_init (SQUOTE :: raw ++ SQUOTE :: [ch "+"]) in
  remaining lx = SQUOTE :: raw ++ SQUOTE :: [ch "+"] /\
  Forall (fun c => c <> SQUOTE /\ c <> BACKSLASH) raw /\
  exists lx',
    tokenize_step ascii_only lx SQUOTE
      = Return (lx', [mkToken STRING raw (cur_line lx') (cur_column lx)]) /\
    remaining lx' = [ch "+"] /\
    cursor lx' = pos_after (cursor lx) (SQUOTE :: raw ++ [SQUOTE]).
Proof.
  assert (H : Forall (fun c => c <> SQUOTE /\ c <> BACKSLASH)
                [ch "a"; DQUOTE; SPACE; ch "?"; LF; ch ":"])
    by (repeat constructor; discriminate).
  split; [reflexivity|]. split; [exact H|].
  apply (string_body_is_verbatim ascii_only
           (Lexer_init (SQUOTE :: [ch "a"; DQUOTE; SPACE; ch "?"; LF; ch ":"]
                          ++ SQUOTE :: [ch "+"]))
           SQUOTE [ch "a"; DQUOTE; SPACE; ch "?"; LF; ch ":"] [ch "+"]).
  - right; reflexivity.
  - reflexivity.
  - exact H.
Defined.

Lemma count_LF_solid span :
  Forall (fun c => is_blank c = false) span -> count_occ N.eq_dec span LF = 0.
Proof.
  intros H. apply count_occ_not_In. intros Hin.
  rewrite Forall_forall in H. specialize (H LF Hin). discriminate.
Qed.

Lemma reconstructs_newlines toks s :
  reconstructs toks s ->
  Forall (fun t => type t <> STRING) toks ->
  newline_count toks = count_occ N.eq_dec s LF.
Proof.
  unfold newline_count.
  induction 1 as [|c toks s Hc _ IH|t span toks s Hsp _ IH]; intros Hall.
  - reflexivity.
  - rewrite IH by assumption. cbn [count_occ].
    destruct (N.eq_dec c LF) as [->|_]; [discriminate|reflexivity].
  - inversion Hall as [|? ? Ht Hts]; subst.
    specialize (IH Hts). unfold str, char in *. rewrite count_occ_app.
    cbn [filter].
    unfold spells in Hsp. unfold is_newline.
    destruct (type t); try (now elim Ht); try contradiction;
      try (apply proj2 in Hsp; rewrite (count_LF_solid _ Hsp); exact IH).
    + subst span. cbn [count_occ].
      destruct (N.eq_dec LF LF) as [_|n]; [|now elim n].
      simpl. f_equal. exact IH.
    + subst span. exact IH.
Qed.

(** X17. In a run that returns no string token there is one NEWLINE
    token for every line feed of the text, and the end-of-file token
    is on the line whose number is one more than the number of NEWLINE
    tokens. *)
Theorem one_newline_token_per_line_feed ucd (s : str) (toks : list Token) :
  lex ucd s = Some (Return toks) ->
  Forall (fun t => type t <> STRING) toks ->
  newline_count toks = count_occ N.eq_dec s LF /\
  exists front k,
    toks = front ++ [mkToken EOF [] (1 + newline_count toks) k].
Proof.
  intros Hrun Hall. apply tokenize_loop_run in Hrun.
  destruct Hrun as (mid & l & k & E & Epos & _ & Hrec).
  simpl in E. rewrite remaining_init in *. rewrite <- E in Hrec.
  pose proof (reconstructs_newlines toks s Hrec Hall) as Hn.
  split; [exact Hn|]. exists mid, k. rewrite E at 1. do 3 f_equal.
  rewrite Hn, <- pos_after_line with (k := 1).
  change (cursor (Lexer_init s)) with (1, 1) in Epos. now rewrite <- Epos.
Qed.

Lemma one_newline_token_per_line_feed_witness :
  let s := [ch "a"; LF; LF; ch "b"] in
  let toks := [mkToken IDENTIFIER [ch "a"] 1 1;
               mkToken NEWLINE [BACKSLASH; ch "n"] 1 2;
               mkToken NEWLINE [BACKSLASH; ch "n"] 2 1;
               mkToken IDENTIFIER [ch "b"] 3 1; mkToken EOF [] 3 2] in
  lex ascii_only s = Some (Return toks) /\
  Forall (fun t => type t <> STRING) toks /\
  newline_count toks = count_occ N.eq_dec s LF /\
  exists front k,
    toks = front ++ [mkToken EOF [] (1 + newline_count toks) k].
Proof.
  assert (H : Forall (fun t => type t <> STRING)
                [mkToken IDENTIFIER [ch "a"] 1 1;
                 mkToken NEWLINE [BACKSLASH; ch "n"] 1 2;
                 mkToken NEWLINE [BACKSLASH; ch "n"] 2 1;
                 mkToken IDENTIFIER [ch "b"] 3 1; mkToken EOF [] 3 2])
    by (repeat constructor; discriminate).
  split; [reflexivity|]. split; [exact H|].
  apply (one_newline_token_per_line_feed ascii_only [ch "a"; LF; LF; ch "b"]).
  - reflexivity.
  - exact H.
Defined.

Section CountFacts.
Variable ucd : UnicodeData.

Lemma tokenize_loop_count fuel : forall lx tokens toks,
  tokenize_loop ucd fuel lx tokens = Some (Return toks) ->
  length toks <= length tokens + length (remaining lx) + 1.
Proof.
  induction fuel as [|fuel IH]; intros lx tokens toks Hrun; [discriminate|].
  cbn [tokenize_loop] in Hrun. destruct (current_char lx) as [c|] eqn:Ec.
  - destruct (current_char_some _ _ Ec) as [r Hr].
    destruct (tokenize_step ucd lx c) as [[lx1 new]|e] eqn:Es; [|discriminate].
    destruct (tokenize_step_spec ucd _ _ _ _ _ Hr Es)
      as (span & Hne & R & _ & _ & Hnew).
    apply IH in Hrun. rewrite length_app in Hrun. rewrite R, length_app.
    assert (length new <= 1)
      by (destruct Hnew as [[-> _]|(t & -> & _)]; simpl; lia).
    destruct span; [congruence|]. simpl. lia.
  - injection Hrun as <-. rewrite length_app. simpl. lia.
Qed.
End CountFacts.

(** X18. A run that returns gives at most one token for each character
    of the text, and the end-of-file token: never more tokens than the
    text has characters, plus one. *)
Theorem token_count_bound ucd (s : str) (toks : list Token) :
  lex ucd s = Some (Return toks) ->
  1 <= length toks <= length s + 1.
Proof.
  intros Hrun. split.
  - apply tokenize_loop_run in Hrun. destruct Hrun as (mid & l & k & E & _).
    rewrite E, !length_app. simpl. lia.
  - apply tokenize_loop_count in Hrun. rewrite remaining_init in Hrun.
    simpl in Hrun. lia.
Qed.

Lemma token_count_bound_witness :
  let s := py "a+b" in
  let toks := [mkToken IDENTIFIER (py "a") 1 1; mkToken PLUS (py "+") 1 2;
               mkToken IDENTIFIER (py "b") 1 3; mkToken EOF [] 1 4] in
  lex ascii_only s = Some (Return toks) /\
  1 <= length toks <= length s + 1.
Proof.
  split; [reflexivity|].
  apply (token_count_bound ascii_only (py "a+b")). reflexivity.
Defined.

(** ** The readers at the end of the text *)

Lemma scan_while_at_end p fuel lx result :
  current_char lx = None -> scan_while p fuel lx result = (lx, result).
Proof. intros H. destruct fuel; [reflexivity|]. cbn [scan_while]. now rewrite H. Qed.

Lemma current_char_advance_end lx :
  current_char lx = None -> current_char (advance lx) = None.
Proof.
  unfold current_char. rewrite text_advance, pos_advance, !nth_error_None. lia.
Qed.

(** X19. Called at the end of the text, where no character is left, the
    three readers raise nothing: [read_number] and [read_identifier]
    return a token with an empty text and leave the cursor where it is,
    and [read_string] returns a STRING token with an empty text, not the
    failure for an unclosed string, and leaves the offset two past where
    it was. *)
Theorem readers_at_end_of_text ucd (lx : Lexer) :
  current_char lx = None ->
  read_number ucd lx
    = (lx, mkToken NUMBER [] (cur_line lx) (cur_column lx)) /\
  read_identifier ucd lx
    = (lx, mkToken IDENTIFIER [] (cur_line lx) (cur_column lx)) /\
  read_string lx
    = Return (advance (advance lx),
              mkToken STRING [] (cur_line lx) (cur_column lx)) /\
  pos (advance (advance lx)) = pos lx + 2 /\
  cur_column (advance (advance lx)) = cur_column lx + 2.
Proof.
  intros Hc.
  assert (Hadv : forall l, current_char l = None ->
            cur_line (advance l) = cur_line l /\
            cur_column (advance l) = cur_column l + 1).
  { intros l Hl. unfold advance. unfold current_char in Hl. rewrite Hl. auto. }
  pose proof (current_char_advance_end lx Hc) as Hc1.
  destruct (Hadv lx Hc) as [L1 K1]. destruct (Hadv (advance lx) Hc1) as [L2 K2].
  repeat split.
  - unfold read_number. rewrite scan_while_at_end by exact Hc.
    rewrite Hc. reflexivity.
  - unfold read_identifier. rewrite scan_while_at_end by exact Hc. reflexivity.
  - unfold read_string. rewrite Hc.
    destruct (budget (advance lx)); cbn [read_string_loop bind];
      rewrite ?Hc1; cbn [bind]; rewrite ?Hc1; cbn [option_char_eqb];
      rewrite L2, L1; reflexivity.
  - rewrite !pos_advance. lia.
  - rewrite K2, K1. lia.
Qed.

Lemma readers_at_end_of_text_witness :
  let lx := mkLexer (py "ab") 2 1 3 in
  current_char lx = None /\
  read_number ascii_only lx
    = (lx, mkToken NUMBER [] (cur_line lx) (cur_column lx)) /\
  read_identifier ascii_only lx
    = (lx, mkToken IDENTIFIER [] (cur_line lx) (cur_column lx)) /\
  read_string lx
    = Return (advance (advance lx),
              mkToken STRING [] (cur_line lx) (cur_column lx)) /\
  pos (advance (advance lx)) = pos lx + 2 /\
  cur_column (advance (advance lx)) = cur_column lx + 2.
Proof.
  split; [reflexivity|].
  apply (readers_at_end_of_text ascii_only (mkLexer (py "ab") 2 1 3)).
  reflexivity.
Defined.
